(** * Transcriber: the [POST /transcribe] route of [index.js]

    A shallow embedding of the request handler and of
    [transcribeAndTranslateWithGemini], in the two revisions of [index.js]
    (the one that returns a structured result and the one that returns the
    English text only), followed by the properties of the download /
    convert / transcribe pipeline: temporary-file cleanup, error mapping,
    destination capture, fence stripping and the response body.

    Conventions of the model:
    - a JavaScript string is the sequence of its UTF-16 code units, a
      [list N];
    - the filesystem is the finite set of the paths that exist; the contents
      of files are opaque;
    - the handler is a computation in a state and exception monad; the
      state holds the filesystem, the console, the record of the
      collaborators invoked, the response sent and the mutable local
      [downloadedFile];
    - yt-dlp, ffmpeg, the Gemini endpoint, the clock and deletions that
      fail belong to an environment record, over which every theorem
      quantifies.  The download is the list of its ['ytDlpEvent'] events
      followed by the event that settles the promise; ffmpeg and the model
      are assumed to settle;
    - paths are POSIX paths, and the [url] of a request is a string or
      absent;
    - the statements that run when the module is loaded (the check of the
      API key, the creation of the temporary directory) are a computation
      of their own. *)

From Stdlib Require Import NArith ZArith String Ascii List Bool Lia.
From Stdlib Require Import DecimalString DecimalN DecimalFacts.
From stdpp Require Import base gmap sets list.

Set Warnings "-register-all,-clear-no-such-hyp,-level-tolerance".

(** ** JavaScript strings *)

Module JsString.

#[local] Open Scope N_scope.

Abbreviation jsstring := (list N).

(** A string literal of the source, as code units. *)
Definition js (s : string) : jsstring :=
  map N_of_ascii (list_ascii_of_string s).
Arguments js : simpl never.

(** The double-quote character, which a literal cannot hold. *)
Definition dq : N := 34.

(** [quoted s] is [s] between two double quotes. *)
Definition quoted (s : jsstring) : jsstring := dq :: s ++ [dq].

Definition eqb (a b : jsstring) : bool := bool_decide (a = b).

(** [is_prefix p s]: [s] begins with [p]. *)
Fixpoint is_prefix (p s : jsstring) : bool :=
  match p, s with
  | [], _ => true
  | _ :: _, [] => false
  | a :: p', b :: s' => N.eqb a b && is_prefix p' s'
  end.

(** [String.prototype.startsWith] at position 0. *)
Definition startsWith (s p : jsstring) : bool := is_prefix p s.

(** [String.prototype.includes]. *)
Fixpoint includes (s sub : jsstring) : bool :=
  is_prefix sub s ||
  match s with
  | [] => false
  | _ :: s' => includes s' sub
  end.

(** [String.prototype.split] with a non-empty string separator and no limit.
    [cur] holds the current segment reversed; [skip] counts the code units of
    a matched separator that are still to be passed over. *)
Fixpoint split_go (sep s cur : jsstring) (skip : nat) : list jsstring :=
  match s with
  | [] => [rev cur]
  | c :: s' =>
      match skip with
      | S k => split_go sep s' cur k
      | O =>
          if is_prefix sep s
          then rev cur :: split_go sep s' [] (length sep - 1)
          else split_go sep s' (c :: cur) 0
      end
  end.

Definition split (s sep : jsstring) : list jsstring := split_go sep s [] 0.

(** WhiteSpace and LineTerminator code units, the ones [trim] removes. *)
Definition is_js_space (c : N) : bool :=
  (9 <=? c) && (c <=? 13)
  || (c =? 32) || (c =? 160) || (c =? 5760)
  || (8192 <=? c) && (c <=? 8202)
  || (c =? 8232) || (c =? 8233) || (c =? 8239) || (c =? 8287)
  || (c =? 12288) || (c =? 65279).

Fixpoint trimStart (s : jsstring) : jsstring :=
  match s with
  | c :: s' => if is_js_space c then trimStart s' else s
  | [] => []
  end.

Definition trimEnd (s : jsstring) : jsstring := rev (trimStart (rev s)).

(** [String.prototype.trim]. *)
Definition trim (s : jsstring) : jsstring := trimEnd (trimStart s).

(** [String.prototype.substring]: both indices are clamped to
    [0 .. length] and swapped when the first exceeds the second. *)
Definition clamp_index (i : Z) (len : nat) : nat :=
  Nat.min (Z.to_nat (Z.max 0 i)) len.

Definition substring (s : jsstring) (a b : Z) : jsstring :=
  let a' := clamp_index a (length s) in
  let b' := clamp_index b (length s) in
  let from := Nat.min a' b' in
  let to := Nat.max a' b' in
  take (to - from) (drop from s).

(** Number-to-string conversion of a non-negative integer below 1e21, as a
    template literal performs it: plain decimal digits, ["0"] for zero. *)
Definition decimal (n : N) : jsstring :=
  js (NilEmpty.string_of_uint (N.to_uint n)).

(** A string is truthy when it is not empty. *)
Definition truthy (s : jsstring) : bool :=
  match s with [] => false | _ => true end.

End JsString.
Import JsString.

(** ** JSON values and [JSON.parse] *)

Module Json.

#[local] Open Scope N_scope.

(** A parsed JSON value.  An object is a finite map from property names to
    values: a repeated name keeps its last value, as [JSON.parse] does.  A
    number is kept as its source lexeme; its conversion to a double is not
    modelled. *)
Inductive JValue :=
| JNull
| JBool (b : bool)
| JNumber (lexeme : jsstring)
| JString (s : jsstring)
| JArray (elems : list JValue)
| JObject (props : gmap jsstring JValue).

Inductive Token :=
| TLBrace | TRBrace | TLBracket | TRBracket | TColon | TComma
| TString (s : jsstring)
| TNumber (lexeme : jsstring)
| TTrue | TFalse | TNull.

(** Where the lexer stands inside a number: an optional minus sign, an
    integer part without a leading zero (or a lone zero), an optional
    fraction, an optional exponent. *)
Inductive NumState :=
| NMinus | NZero | NInt | NDot | NFrac | NExp | NExpSign | NExpDigits.

Inductive LexState :=
| LIdle
| LStr (acc : jsstring)
| LEsc (acc : jsstring)
| LHex (acc : jsstring) (seen : nat) (value : N)
| LNum (st : NumState) (acc : jsstring)
| LLit (rest : jsstring) (tok : Token).

Definition is_json_space (c : N) : bool :=
  (c =? 9) || (c =? 10) || (c =? 13) || (c =? 32).

Definition is_digit (c : N) : bool := (48 <=? c) && (c <=? 57).

Definition hex_value (c : N) : option N :=
  if (48 <=? c) && (c <=? 57) then Some (c - 48)
  else if (65 <=? c) && (c <=? 70) then Some (c - 55)
  else if (97 <=? c) && (c <=? 102) then Some (c - 87)
  else None.

Definition is_exp_mark (c : N) : bool := (c =? 101) || (c =? 69).

(** One code unit read outside any token. *)
Definition lex_idle (c : N) : option (LexState * list Token) :=
  if is_json_space c then Some (LIdle, [])
  else if c =? 123 then Some (LIdle, [TLBrace])
  else if c =? 125 then Some (LIdle, [TRBrace])
  else if c =? 91 then Some (LIdle, [TLBracket])
  else if c =? 93 then Some (LIdle, [TRBracket])
  else if c =? 58 then Some (LIdle, [TColon])
  else if c =? 44 then Some (LIdle, [TComma])
  else if c =? 34 then Some (LStr [], [])
  else if c =? 45 then Some (LNum NMinus [c], [])
  else if c =? 48 then Some (LNum NZero [c], [])
  else if is_digit c then Some (LNum NInt [c], [])
  else if c =? 116 then Some (LLit (js "rue") TTrue, [])
  else if c =? 102 then Some (LLit (js "alse") TFalse, [])
  else if c =? 110 then Some (LLit (js "ull") TNull, [])
  else None.

(** A number may stop in these states. *)
Definition num_final (st : NumState) : bool :=
  match st with
  | NZero | NInt | NFrac | NExpDigits => true
  | _ => false
  end.

(** The next state of a number on [c], or [None] when [c] does not extend
    it. *)
Definition num_next (st : NumState) (c : N) : option NumState :=
  match st with
  | NMinus =>
      if c =? 48 then Some NZero else if is_digit c then Some NInt else None
  | NZero =>
      if c =? 46 then Some NDot else if is_exp_mark c then Some NExp else None
  | NInt =>
      if is_digit c then Some NInt
      else if c =? 46 then Some NDot
      else if is_exp_mark c then Some NExp else None
  | NDot => if is_digit c then Some NFrac else None
  | NFrac =>
      if is_digit c then Some NFrac
      else if is_exp_mark c then Some NExp else None
  | NExp =>
      if (c =? 43) || (c =? 45) then Some NExpSign
      else if is_digit c then Some NExpDigits else None
  | NExpSign => if is_digit c then Some NExpDigits else None
  | NExpDigits => if is_digit c then Some NExpDigits else None
  end.

Definition unescape (c : N) : option N :=
  if c =? 34 then Some 34
  else if c =? 92 then Some 92
  else if c =? 47 then Some 47
  else if c =? 98 then Some 8
  else if c =? 102 then Some 12
  else if c =? 110 then Some 10
  else if c =? 114 then Some 13
  else if c =? 116 then Some 9
  else None.

Definition lex_step (st : LexState) (c : N) : option (LexState * list Token) :=
  match st with
  | LIdle => lex_idle c
  | LStr acc =>
      if c =? 34 then Some (LIdle, [TString (rev acc)])
      else if c =? 92 then Some (LEsc acc, [])
      else if c <? 32 then None
      else Some (LStr (c :: acc), [])
  | LEsc acc =>
      if c =? 117 then Some (LHex acc 0 0, [])
      else match unescape c with
           | Some u => Some (LStr (u :: acc), [])
           | None => None
           end
  | LHex acc seen value =>
      match hex_value c with
      | Some d =>
          let value' := value * 16 + d in
          if Nat.eqb seen 3 then Some (LStr (value' :: acc), [])
          else Some (LHex acc (S seen) value', [])
      | None => None
      end
  | LNum ns acc =>
      match num_next ns c with
      | Some ns' => Some (LNum ns' (c :: acc), [])
      | None =>
          if num_final ns then
            match lex_idle c with
            | Some (st', out) => Some (st', TNumber (rev acc) :: out)
            | None => None
            end
          else None
      end
  | LLit rest tok =>
      match rest with
      | [] => None
      | x :: rest' =>
          if c =? x then
            match rest' with
            | [] => Some (LIdle, [tok])
            | _ => Some (LLit rest' tok, [])
            end
          else None
      end
  end.

Definition lex_end (st : LexState) : option (list Token) :=
  match st with
  | LIdle => Some []
  | LNum ns acc => if num_final ns then Some [TNumber (rev acc)] else None
  | _ => None
  end.

Fixpoint lex_from (st : LexState) (s : jsstring) : option (list Token) :=
  match s with
  | [] => lex_end st
  | c :: s' =>
      match lex_step st c with
      | Some (st', out) =>
          match lex_from st' s' with
          | Some toks => Some (out ++ toks)
          | None => None
          end
      | None => None
      end
  end.

Definition lex (s : jsstring) : option (list Token) := lex_from LIdle s.

(** An open container: an array with the elements read so far (latest
    first), an object between members, or an object that has read a name
    and waits for its value. *)
Inductive Frame :=
| FArray (elems : list JValue)
| FObject (props : gmap jsstring JValue)
| FMember (props : gmap jsstring JValue) (name : jsstring).

(** What the grammar allows next. *)
Inductive Mode :=
| MValue
| MFirstElem
| MFirstName
| MName
| MColon
| MAfter
| MDone (v : JValue).

(** A value is complete: it is the whole text, or it joins the innermost
    open container. *)
Definition finish (v : JValue) (stack : list Frame)
  : option (Mode * list Frame) :=
  match stack with
  | [] => Some (MDone v, [])
  | FArray elems :: stack' => Some (MAfter, FArray (v :: elems) :: stack')
  | FMember props name :: stack' =>
      Some (MAfter, FObject (<[name := v]> props) :: stack')
  | FObject _ :: _ => None
  end.

Definition start_value (tok : Token) (stack : list Frame)
  : option (Mode * list Frame) :=
  match tok with
  | TString s => finish (JString s) stack
  | TNumber n => finish (JNumber n) stack
  | TTrue => finish (JBool true) stack
  | TFalse => finish (JBool false) stack
  | TNull => finish JNull stack
  | TLBracket => Some (MFirstElem, FArray [] :: stack)
  | TLBrace => Some (MFirstName, FObject ∅ :: stack)
  | _ => None
  end.

Definition start_member (tok : Token) (stack : list Frame)
  : option (Mode * list Frame) :=
  match tok, stack with
  | TString name, FObject props :: stack' =>
      Some (MColon, FMember props name :: stack')
  | _, _ => None
  end.

Definition close_array (stack : list Frame) : option (Mode * list Frame) :=
  match stack with
  | FArray elems :: stack' => finish (JArray (rev elems)) stack'
  | _ => None
  end.

Definition close_object (stack : list Frame) : option (Mode * list Frame) :=
  match stack with
  | FObject props :: stack' => finish (JObject props) stack'
  | _ => None
  end.

Definition parse_step (mode : Mode) (stack : list Frame) (tok : Token)
  : option (Mode * list Frame) :=
  match mode with
  | MValue => start_value tok stack
  | MFirstElem =>
      match tok with
      | TRBracket => close_array stack
      | _ => start_value tok stack
      end
  | MFirstName =>
      match tok with
      | TRBrace => close_object stack
      | _ => start_member tok stack
      end
  | MName => start_member tok stack
  | MColon =>
      match tok with
      | TColon => Some (MValue, stack)
      | _ => None
      end
  | MAfter =>
      match tok, stack with
      | TComma, FArray _ :: _ => Some (MValue, stack)
      | TComma, FObject _ :: _ => Some (MName, stack)
      | TRBracket, _ => close_array stack
      | TRBrace, _ => close_object stack
      | _, _ => None
      end
  | MDone _ => None
  end.

Fixpoint parse_tokens (mode : Mode) (stack : list Frame) (toks : list Token)
  : option JValue :=
  match toks with
  | [] => match mode with MDone v => Some v | _ => None end
  | tok :: toks' =>
      match parse_step mode stack tok with
      | Some (mode', stack') => parse_tokens mode' stack' toks'
      | None => None
      end
  end.

(** [JSON.parse text] without a reviver: [Some v] for the value denoted by
    [text], [None] where [JSON.parse] throws a [SyntaxError].  [JSON.parse]
    is a built-in of the language; this is the JSON grammar it implements. *)
Definition JSON_parse (text : jsstring) : option JValue :=
  match lex text with
  | Some toks => parse_tokens MValue [] toks
  | None => None
  end.

(** The own enumerable properties that an object spread [...v] copies:
    those of an object, the indexed elements of an array, the indexed code
    units of a string, and none for [null], booleans and numbers. *)
Definition indexed {A} (f : A -> JValue) (l : list A)
  : gmap jsstring JValue :=
  list_to_map (imap (fun i x => (decimal (N.of_nat i), f x)) l).

Definition spread (v : JValue) : gmap jsstring JValue :=
  match v with
  | JObject props => props
  | JArray elems => indexed id elems
  | JString s => indexed (fun c => JString [c]) s
  | JNull | JBool _ | JNumber _ => ∅
  end.

End Json.
Import Json.

(** ** Effects: state, exceptions and the external world *)

Module Runtime.

(** An exception value.  The handler reads nothing but [error.message]. *)
Record JsError := Error { message : jsstring }.

(** An argument of [console.log] / [console.error]. *)
Inductive Logged :=
| LText (s : jsstring)
| LError (e : JsError).

Inductive LogEntry :=
| ConsoleLog (args : list Logged)
| ConsoleError (args : list Logged).

(** An invocation of an external collaborator. *)
Inductive Call :=
| CallYtDlp (args : list jsstring)
| CallFfmpeg (input output : jsstring)
| CallGenerateContent (audioPath : jsstring).

(** [res.status(code).json(body)]. *)
Record Response := { status : Z; body : JValue }.

(** Everything a request can read or change: the paths that exist, the
    console, the collaborators invoked so far, the response sent, and the
    handler's mutable local [downloadedFile]. *)
Record State := {
  fs : gset jsstring;
  console : list LogEntry;
  calls : list Call;
  response : option Response;
  downloadedFile : jsstring;
}.

(** How a computation ends: with a value, with an exception that an
    enclosing [try] can catch, or with an exception raised inside an event
    listener, which unwinds into the emitter and never reaches the
    handler's [try]. *)
Inductive Completion (A : Type) :=
| Normal (a : A)
| Throw (e : JsError)
| Uncaught (e : JsError).
Arguments Normal {A} a.
Arguments Throw {A} e.
Arguments Uncaught {A} e.

Definition M (A : Type) : Type := State -> Completion A * State.

Definition ret {A} (a : A) : M A := fun st => (Normal a, st).

Definition bind {A B} (m : M A) (k : A -> M B) : M B :=
  fun st =>
    match m st with
    | (Normal a, st') => k a st'
    | (Throw e, st') => (Throw e, st')
    | (Uncaught e, st') => (Uncaught e, st')
    end.

Definition throw {A} (e : JsError) : M A := fun st => (Throw e, st).

Definition uncaught {A} (e : JsError) : M A := fun st => (Uncaught e, st).

(** [try { body } catch (error) { handler error }]. *)
Definition try_catch {A} (body : M A) (handler : JsError -> M A) : M A :=
  fun st =>
    match body st with
    | (Throw e, st') => handler e st'
    | other => other
    end.

(** [try { body } finally { cleanup }]: the cleanup runs after a value and
    after an exception alike; when the cleanup throws, its exception
    replaces the completion of the body. *)
Definition try_finally {A} (body : M A) (cleanup : M unit) : M A :=
  fun st =>
    match body st with
    | (Uncaught e, st') => (Uncaught e, st')
    | (done, st') =>
        match cleanup st' with
        | (Normal _, st'') => (done, st'')
        | (Throw e, st'') => (Throw e, st'')
        | (Uncaught e, st'') => (Uncaught e, st'')
        end
    end.

(** The completion reaches the code that awaits it: it is a value or a
    catchable exception. *)
Definition settles {A} (r : Completion A * State) : Prop :=
  match r.1 with Uncaught _ => False | _ => True end.

(** The computation deletes no file. *)
Definition keeps {A} (m : M A) : Prop := forall st, fs st ⊆ fs (m st).2.

Definition gets {A} (f : State -> A) : M A := fun st => (Normal (f st), st).

Definition modify (f : State -> State) : M unit :=
  fun st => (Normal tt, f st).

Definition set_fs (g : gset jsstring -> gset jsstring) (st : State) : State :=
  {| fs := g (fs st); console := console st; calls := calls st;
     response := response st; downloadedFile := downloadedFile st |}.

Definition add_log (entry : LogEntry) (st : State) : State :=
  {| fs := fs st; console := console st ++ [entry]; calls := calls st;
     response := response st; downloadedFile := downloadedFile st |}.

Definition add_call (c : Call) (st : State) : State :=
  {| fs := fs st; console := console st; calls := calls st ++ [c];
     response := response st; downloadedFile := downloadedFile st |}.

Definition set_response (r : Response) (st : State) : State :=
  {| fs := fs st; console := console st; calls := calls st;
     response := Some r; downloadedFile := downloadedFile st |}.

Definition set_downloadedFile (p : jsstring) (st : State) : State :=
  {| fs := fs st; console := console st; calls := calls st;
     response := response st; downloadedFile := p |}.

Definition console_log (msg : jsstring) : M unit :=
  modify (add_log (ConsoleLog [LText msg])).

Definition console_error (label : jsstring) (what : Logged) : M unit :=
  modify (add_log (ConsoleError [LText label; what])).

Definition invoke (c : Call) : M unit := modify (add_call c).

Definition respond (code : Z) (b : JValue) : M unit :=
  modify (set_response {| status := code; body := b |}).

(** [fs.existsSync]. *)
Definition existsSync (p : jsstring) : M bool :=
  gets (fun st => bool_decide (p ∈ fs st)).

Definition writes (paths : list jsstring) : M unit :=
  modify (set_fs (fun files => list_to_set paths ∪ files)).

End Runtime.
Import Runtime.

Declare Scope js_scope.
Delimit Scope js_scope with js.
Notation "'let!' x ':=' m 'in' k" := (bind m (fun x => k))
  (at level 10, x name, m at level 100, k at level 200) : js_scope.
Notation "'run' m 'then' k" := (bind m (fun _ => k))
  (at level 10, m at level 100, k at level 200) : js_scope.
#[local] Open Scope js_scope.

(** ** The server *)

Module Server.

(** How the download process ends: the ['close'] event, or the ['error']
    event with its error object.  The promise around the download settles on
    the first of the two; a later one changes nothing. *)
Inductive ProcessEnd :=
| Close
| ProcessError (err : JsError).

(** What [model.generateContent] followed by [result.response.text()]
    produces: the reply text, or an exception. *)
Inductive Inference :=
| Reply (text : jsstring)
| InferenceError (err : JsError).

(** The world around one request.  Every awaited tool settles in it: the
    download closes or errors, the conversion ends or errors, the model
    replies or throws.  A tool that never settles, after which the handler
    never completes and sends no response (the source sets no timeout), is
    not represented. *)
Record Env := {
  (** [path.join(__dirname, 'temp')], a normalised POSIX path *)
  tempDir : jsstring;
  (** the value of [Date.now()] *)
  now : N;
  (** the ['ytDlpEvent'] events [(eventType, eventData)] emitted before the
      download settles, in order *)
  ytdlp_events : list (jsstring * jsstring);
  ytdlp_end : ProcessEnd;
  (** the files that yt-dlp has written when it settles *)
  ytdlp_files : list jsstring;
  (** ffmpeg: [None] for the ['end'] event, [Some err] for ['error'] *)
  ffmpeg_error : option JsError;
  (** whether a failed conversion leaves an output file behind *)
  ffmpeg_leaves_output : bool;
  inference : Inference;
  (** [fs.unlinkSync p] throws [e] when this is [Some e] *)
  unlink_error : jsstring -> option JsError;
}.

(** The JSON body of the request: [url] is [None] when the property is
    absent.  Only string values of [url] are modelled. *)
Record Request := { url : option jsstring }.

(** [path.join(dir, name)] for a normalised [dir] and a plain file name. *)
Definition path_join (dir name : jsstring) : jsstring :=
  dir ++ js "/" ++ name.

(** [path.join(tempDir, `${uniqueId}.wav`)]. *)
Definition audioFilePath (env : Env) : jsstring :=
  path_join (tempDir env) (decimal (now env) ++ js ".wav").

(** [path.join(tempDir, `${uniqueId}.%(ext)s`)]. *)
Definition outputTemplate (env : Env) : jsstring :=
  path_join (tempDir env) (decimal (now env) ++ js ".%(ext)s").

(** [fs.unlinkSync]. *)
Definition unlinkSync (env : Env) (p : jsstring) : M unit :=
  match unlink_error env p with
  | Some e => throw e
  | None => modify (set_fs (fun files => files ∖ {[p]}))
  end.

(** [fs.readFileSync]: the contents are opaque, a missing file throws. *)
Definition readFileSync (p : jsstring) : M unit :=
  let! present := existsSync p in
  if present then ret tt
  else throw (Error (js "ENOENT: no such file or directory")).

(** The condition of the ['ytDlpEvent'] listener. *)
Definition announces_destination (eventType eventData : jsstring) : bool :=
  eqb eventType (js "download") && includes eventData (js "Destination:").

(** [eventData.split('Destination: ')[1]], [None] for [undefined]. *)
Definition after_destination (eventData : jsstring) : option jsstring :=
  split eventData (js "Destination: ") !! 1%nat.

(** The ['ytDlpEvent'] listener.  Calling [.trim()] on [undefined] raises a
    [TypeError] inside the listener. *)
Definition on_ytDlpEvent (eventType eventData : jsstring) : M unit :=
  if announces_destination eventType eventData then
    match after_destination eventData with
    | Some part => modify (set_downloadedFile (trim part))
    | None =>
        uncaught
          (Error (js "Cannot read properties of undefined (reading 'trim')"))
    end
  else ret tt.

Fixpoint emit_all (events : list (jsstring * jsstring)) : M unit :=
  match events with
  | [] => ret tt
  | (eventType, eventData) :: rest =>
      run on_ytDlpEvent eventType eventData then emit_all rest
  end.

(** The value of [downloadedFile] once the listener has handled [events],
    starting from [current]: every announcing event overwrites it.  [None]
    when the listener throws on one of them. *)
Fixpoint captured (events : list (jsstring * jsstring)) (current : jsstring)
  : option jsstring :=
  match events with
  | [] => Some current
  | (eventType, eventData) :: rest =>
      if announces_destination eventType eventData then
        match after_destination eventData with
        | Some part => captured rest (trim part)
        | None => None
        end
      else captured rest current
  end.

(** [ytDlpWrap.exec([url, '-f', 'bestaudio', '-o', template])]. *)
Definition ytdlp_call (env : Env) (u : jsstring) : Call :=
  CallYtDlp [u; js "-f"; js "bestaudio"; js "-o"; outputTemplate env].

(** The paths that exist once yt-dlp has run. *)
Definition after_download (env : Env) (st : State) : gset jsstring :=
  list_to_set (ytdlp_files env) ∪ fs st.

(** The awaited promise around [ytDlpWrap.exec]. *)
Definition await_download (env : Env) (u : jsstring) : M unit :=
  run invoke (ytdlp_call env u) then
  run writes (ytdlp_files env) then
  run emit_all (ytdlp_events env) then
  match ytdlp_end env with
  | Close =>
      let! file := gets downloadedFile in
      if negb (truthy file) then throw (Error (js "DownloadFailed"))
      else ret tt
  | ProcessError err => throw err
  end.

(** Step 1 of the [try] block. *)
Definition download_step (env : Env) (u : jsstring) : M unit :=
  run console_log (js "[1/3] Downloading audio from: " ++ u) then
  run await_download env u then
  let! file := gets downloadedFile in
  let! present := existsSync file in
  if negb (truthy file) || negb present
  then throw (Error (js "DownloadFailed"))
  else console_log (js "[1/3] Download complete. File saved to: " ++ file).

(** Step 2 of the [try] block: the awaited promise around [ffmpeg]. *)
Definition convert_step (env : Env) : M unit :=
  run console_log (js "[2/3] Converting to WAV format...") then
  let! file := gets downloadedFile in
  run invoke (CallFfmpeg file (audioFilePath env)) then
  match ffmpeg_error env with
  | None =>
      run writes [audioFilePath env] then
      console_log (js "[2/3] Conversion successful.")
  | Some err =>
      run (if ffmpeg_leaves_output env then writes [audioFilePath env]
           else ret tt) then
      run console_error (js "[2/3] FFmpeg error:") (LError err) then
      throw err
  end.

(** [model.generateContent([prompt, audioPart])] and
    [result.response.text()].  The prompt is a constant of the source that
    no property below depends on; it is not represented. *)
Definition generateContent (env : Env) (filePath : jsstring) : M jsstring :=
  run invoke (CallGenerateContent filePath) then
  match inference env with
  | Reply text => ret text
  | InferenceError err => throw err
  end.

(** The error that [transcribeAndTranslateWithGemini] throws from its outer
    [catch]. *)
Definition gemini_failure : JsError :=
  Error (js "Failed to transcribe or translate audio with Gemini.").

Definition download_failed_message : jsstring :=
  js "Content could not be downloaded. The URL may be invalid, private, or the content is unavailable.".

(** The [catch] block of the route. *)
Definition on_error (error : JsError) : M unit :=
  if eqb (message error) (js "DownloadFailed") then
    respond 400 (JObject {[ js "error" := JString download_failed_message ]})
  else
    run console_error
          (js "An error occurred during the transcription process:")
          (LError error) then
    respond 500
      (JObject (<[ js "error" :=
                     JString (js "An internal server error occurred.") ]>
                ({[ js "details" := JString (message error) ]}))).

(** The [finally] block of the route. *)
Definition cleanup (env : Env) : M unit :=
  let! file := gets downloadedFile in
  let! raw_present := existsSync file in
  run (if truthy file && raw_present then unlinkSync env file else ret tt) then
  let! wav_present := existsSync (audioFilePath env) in
  run (if wav_present then unlinkSync env (audioFilePath env) else ret tt) then
  console_log (js "Temporary files cleaned up.").

(** Both revisions of [index.js] share the route and differ in the
    transcription function and in the body of the 200 response. *)
Section Route.

Context {R : Type}.
Variable transcribe : Env -> jsstring -> M R.
Variable success_body : jsstring -> R -> JValue.

(** The [try] block. *)
Definition pipeline (env : Env) (u : jsstring) : M unit :=
  run download_step env u then
  run convert_step env then
  run console_log
        (js "[3/3] Starting transcription and translation for: "
         ++ audioFilePath env) then
  let! result := transcribe env (audioFilePath env) in
  run console_log (js "[3/3] Process complete.") then
  respond 200 (success_body u result).

(** [app.post('/transcribe', async (req, res) => ...)]. *)
Definition transcribe_route (env : Env) (req : Request) : M unit :=
  match url req with
  | Some u =>
      if negb (truthy u) then
        respond 400
          (JObject {[ js "error" :=
                        JString (js "Instagram Reel URL is required.") ]})
      else
        run modify (set_downloadedFile []) then
        try_finally (try_catch (pipeline env u) on_error) (cleanup env)
  | None =>
      respond 400
        (JObject {[ js "error" :=
                      JString (js "Instagram Reel URL is required.") ]})
  end.

End Route.

End Server.
Import Server.

(** ** The revision that returns a structured result *)

Module Structured.

(** The fence cleaning of the reply. *)
Definition strip_fence (jsonResponse : jsstring) : jsstring :=
  if startsWith jsonResponse (js "```json") then
    trim (substring jsonResponse 7 (Z.of_nat (length jsonResponse) - 3))
  else jsonResponse.

(** The inner [try] / [catch] around [JSON.parse].  The [SyntaxError] is
    caught at once and never logged, so its message is immaterial. *)
Definition parse_reply (jsonResponse : jsstring) : M JValue :=
  try_catch
    (match JSON_parse jsonResponse with
     | Some v => ret v
     | None => throw (Error (js "SyntaxError"))
     end)
    (fun parseError =>
       run console_error (js "Failed to parse JSON response from Gemini:")
             (LText jsonResponse) then
       throw (Error
                (js "Received an invalid response format from the AI model."))).

Definition transcribeAndTranslateWithGemini (env : Env) (filePath : jsstring)
  : M JValue :=
  try_catch
    (run readFileSync filePath then
     let! text := generateContent env filePath in
     parse_reply (strip_fence text))
    (fun error =>
       run console_error (js "Error during Gemini processing:")
             (LError error) then
       throw gemini_failure).

(** [{ sourceUrl: url, ...result }]: the properties of [result] come last,
    so they win over [sourceUrl]. *)
Definition success_body (u : jsstring) (result : JValue) : JValue :=
  JObject (spread result ∪ {[ js "sourceUrl" := JString u ]}).

Definition route : Env -> Request -> M unit :=
  transcribe_route transcribeAndTranslateWithGemini success_body.

End Structured.

(** ** The revision that returns the English text only *)

Module Plain.

Definition transcribeAndTranslateWithGemini (env : Env) (filePath : jsstring)
  : M jsstring :=
  try_catch
    (run readFileSync filePath then
     let! text := generateContent env filePath in
     ret (trim text))
    (fun error =>
       run console_error (js "Error during Gemini processing:")
             (LError error) then
       throw gemini_failure).

(** [{ sourceUrl: url, transcript: transcript }]. *)
Definition success_body (u : jsstring) (transcript : jsstring) : JValue :=
  JObject (<[ js "sourceUrl" := JString u ]>
           ({[ js "transcript" := JString transcript ]})).

Definition route : Env -> Request -> M unit :=
  transcribe_route transcribeAndTranslateWithGemini success_body.

End Plain.

(** ** Concrete requests and environments *)

Module Samples.

#[local] Open Scope N_scope.

Definition st0 : State :=
  {| fs := {[ js "/app/temp/keep.txt" ]}; console := []; calls := [];
     response := None; downloadedFile := [] |}.

Definition reel : Request := {| url := Some (js "https://valid.example/reel") |}.

Definition raw_path : jsstring := js "/app/temp/1700000000123.m4a".

(** The minified object of three fields. *)
Definition three_fields : jsstring :=
  js "{" ++ quoted (js "language_detected") ++ js ":" ++ quoted (js "es")
  ++ js "," ++ quoted (js "original_transcript") ++ js ":"
  ++ quoted (js "hola")
  ++ js "," ++ quoted (js "english_translation") ++ js ":"
  ++ quoted (js "hello") ++ js "}".

(** The same object inside a json-tagged fence, with line feeds. *)
Definition fenced : jsstring :=
  js "```json" ++ [10] ++ three_fields ++ [10] ++ js "```".

(** The same object inside a fence without a language tag. *)
Definition fenced_untagged : jsstring :=
  js "```" ++ [10] ++ three_fields ++ [10] ++ js "```".

(** A run in which every tool works. *)
Definition working : Env :=
  {| tempDir := js "/app/temp";
     now := 1700000000123;
     ytdlp_events :=
       [ (js "youtube", js "Extracting URL");
         (js "download", js "Destination: /app/temp/1700000000123.m4a");
         (js "download", js "100% of 1.2MiB") ];
     ytdlp_end := Close;
     ytdlp_files := [raw_path];
     ffmpeg_error := None;
     ffmpeg_leaves_output := false;
     inference := Reply fenced;
     unlink_error := fun _ => None |}.

Definition with_download (env : Env)
    (events : list (jsstring * jsstring)) (ending : ProcessEnd)
    (files : list jsstring) : Env :=
  {| tempDir := tempDir env; now := now env;
     ytdlp_events := events; ytdlp_end := ending; ytdlp_files := files;
     ffmpeg_error := ffmpeg_error env;
     ffmpeg_leaves_output := ffmpeg_leaves_output env;
     inference := inference env; unlink_error := unlink_error env |}.

Definition with_inference (env : Env) (i : Inference) : Env :=
  {| tempDir := tempDir env; now := now env;
     ytdlp_events := ytdlp_events env; ytdlp_end := ytdlp_end env;
     ytdlp_files := ytdlp_files env;
     ffmpeg_error := ffmpeg_error env;
     ffmpeg_leaves_output := ffmpeg_leaves_output env;
     inference := i; unlink_error := unlink_error env |}.

Definition with_unlink_error (env : Env)
    (f : jsstring -> option JsError) : Env :=
  {| tempDir := tempDir env; now := now env;
     ytdlp_events := ytdlp_events env; ytdlp_end := ytdlp_end env;
     ytdlp_files := ytdlp_files env;
     ffmpeg_error := ffmpeg_error env;
     ffmpeg_leaves_output := ffmpeg_leaves_output env;
     inference := inference env; unlink_error := f |}.

(** yt-dlp announces a first file, then the file it keeps. *)
Definition two_announcements : list (jsstring * jsstring) :=
  [ (js "download", js "Destination: /app/temp/1700000000123.webm");
    (js "youtube", js "Extracting URL");
    (js "download", js "Destination: /app/temp/1700000000123.m4a ");
    (js "download", js "100% of 1.2MiB") ].

Definition announcing_twice : Env :=
  with_download working two_announcements Close [raw_path].

(** yt-dlp closes without announcing anything. *)
Definition silent : Env :=
  with_download working [(js "youtube", js "Extracting URL")] Close [].

(** yt-dlp announces a file that is not on disk when it closes. *)
Definition vanished : Env :=
  with_download working (ytdlp_events working) Close [].

Definition spawn_error : JsError := Error (js "spawn yt-dlp ENOENT").

(** The download process emits ['error']. *)
Definition crashing : Env :=
  with_download working [] (ProcessError spawn_error) [].

Definition eperm : JsError :=
  Error (js "EPERM: operation not permitted, unlink").

(** The raw media file cannot be deleted. *)
Definition undeletable : Env :=
  with_unlink_error working
    (fun p => if eqb p raw_path then Some eperm else None).

(** The model answers with text that is not JSON. *)
Definition garbled : Env := with_inference working (Reply (js "not json")).

(** The call to the model fails. *)
Definition unreachable : Env :=
  with_inference working (InferenceError (Error (js "fetch failed"))).

(** The model answers with an empty JSON object. *)
Definition empty_object : Env := with_inference working (Reply (js "{}")).

(** The model answers with one field only, named [sourceUrl]. *)
Definition shadowing : Env :=
  with_inference working
    (Reply (js "{" ++ quoted (js "sourceUrl") ++ js ":" ++ quoted (js "x")
            ++ js "}")).

End Samples.

(** ** Module initialisation *)

Module Startup.

(** [process.env], as far as the module reads it before it serves
    requests. *)
Record ProcessEnv := { GEMINI_API_KEY : option jsstring }.

(** An environment variable is truthy when it is set and not empty. *)
Definition is_set (v : option jsstring) : bool :=
  match v with
  | Some s => truthy s
  | None => false
  end.

(** [fs.mkdirSync p] for a directory whose parent exists: it throws when
    the path exists already. *)
Definition mkdirSync (p : jsstring) : M unit :=
  let! present := existsSync p in
  if present then throw (Error (js "EEXIST: file already exists, mkdir"))
  else writes [p].

(** The statements that run when the module is loaded: the check of the
    API key, then the creation of the temporary directory [dir], which is
    [path.join(__dirname, 'temp')]. *)
Definition initialise (penv : ProcessEnv) (dir : jsstring) : M unit :=
  if negb (is_set (GEMINI_API_KEY penv)) then
    throw (Error (js "GEMINI_API_KEY is not defined in your .env file."))
  else
    let! present := existsSync dir in
    if negb present then mkdirSync dir else ret tt.

End Startup.

(** ** What a computation may touch *)

Module Footprint.

(** The computation deletes no file, creates files in [created] only, and
    leaves [downloadedFile] as it was. *)
Definition confined {A : Type} (created : gset jsstring) (m : M A) : Prop :=
  forall st,
    fs st ⊆ fs (m st).2 /\
    fs (m st).2 ⊆ fs st ∪ created /\
    downloadedFile (m st).2 = downloadedFile st.

(** The computation leaves the record of invoked collaborators as it
    was. *)
Definition silent_calls {A : Type} (m : M A) : Prop :=
  forall st, calls (m st).2 = calls st.

End Footprint.

(** ** Further environments *)

Module Scenarios.

Import Samples.

Definition with_ffmpeg (env : Env) (err : option JsError) (leaves : bool)
  : Env :=
  {| tempDir := tempDir env; now := now env;
     ytdlp_events := ytdlp_events env; ytdlp_end := ytdlp_end env;
     ytdlp_files := ytdlp_files env;
     ffmpeg_error := err;
     ffmpeg_leaves_output := leaves;
     inference := inference env; unlink_error := unlink_error env |}.

Definition codec_error : JsError :=
  Error (js "ffmpeg exited with code 1: Invalid data found when processing input").

(** ffmpeg fails and leaves a partial output file. *)
Definition unconvertible : Env := with_ffmpeg working (Some codec_error) true.

(** The first file that yt-dlp announced. *)
Definition first_path : jsstring := js "/app/temp/1700000000123.webm".

(** yt-dlp announces two files and leaves both on disk. *)
Definition leaving_two : Env :=
  with_download working two_announcements Close [first_path; raw_path].

(** The model answers with the fenced object followed by a line feed. *)
Definition fenced_newline : Env :=
  with_inference working (Reply (fenced ++ [10%N])).

(** The model answers with text surrounded by white space. *)
Definition padded : Env :=
  with_inference working (Reply (js "  Hello there. " ++ [10%N])).

(** The waveform file cannot be deleted. *)
Definition wav_undeletable : Env :=
  with_unlink_error working
    (fun p => if eqb p (audioFilePath working) then Some eperm else None).

End Scenarios.

Import Samples.
Import Startup.
Import Footprint.
Import Scenarios.

(** * Supporting lemmas *)

(** ** The built-in functions on examples *)

Example split_two : split (js "a, b, c") (js ", ") = [js "a"; js "b"; js "c"].
Proof. reflexivity. Qed.

Example split_trailing : split (js "x: ") (js ": ") = [js "x"; []].
Proof. reflexivity. Qed.

Example split_absent : split (js "abc") (js ": ") = [js "abc"].
Proof. reflexivity. Qed.

Example split_overlap : split (js "aaaa") (js "aa") = [[]; []; []].
Proof. reflexivity. Qed.

Example trim_both : trim (js "  /t/a b.m4a ") = js "/t/a b.m4a".
Proof. reflexivity. Qed.

Example substring_swaps : substring (js "```json") 7 4 = js "son".
Proof. reflexivity. Qed.

Example decimal_examples :
  decimal 0 = js "0" /\ decimal 1700000000123 = js "1700000000123".
Proof. split; reflexivity. Qed.

Example parse_array :
  JSON_parse (js "[1, 2.5e-3, true, null, [], {}]")
  = Some (JArray [JNumber (js "1"); JNumber (js "2.5e-3"); JBool true; JNull;
                  JArray []; JObject ∅]).
Proof. by vm_compute. Qed.

Example parse_rejects :
  JSON_parse (js "[1,]") = None /\ JSON_parse (js "01") = None /\
  JSON_parse (js "") = None /\ JSON_parse (js "{}{}") = None /\
  JSON_parse (js "tru") = None /\ JSON_parse (js "1.") = None.
Proof. repeat split; by vm_compute. Qed.

Example parse_repeated_name :
  JSON_parse (js "{" ++ quoted (js "a") ++ js ":1," ++ quoted (js "a")
              ++ js ":2}")
  = Some (JObject {[ js "a" := JNumber (js "2") ]}).
Proof. by vm_compute. Qed.

Example listener_throws_without_space :
  captured [(js "download", js "Destination:/app/temp/1.m4a")] [] = None.
Proof. reflexivity. Qed.

(** ** State bookkeeping *)

Lemma set_downloadedFile_same st :
  set_downloadedFile (downloadedFile st) st = st.
Proof. by destruct st. Qed.

Lemma set_downloadedFile_twice a b st :
  set_downloadedFile a (set_downloadedFile b st) = set_downloadedFile a st.
Proof. by destruct st. Qed.

(** ** What the listener captures *)

Lemma emit_all_captured events : ∀ st file,
  captured events (downloadedFile st) = Some file →
  emit_all events st = (Normal tt, set_downloadedFile file st).
Proof.
  induction events as [|[eventType eventData] rest IH]; intros st file H.
  - simpl in H. injection H as <-. by rewrite set_downloadedFile_same.
  - simpl in *. unfold bind, on_ytDlpEvent.
    destruct (announces_destination eventType eventData).
    + destruct (after_destination eventData) as [part|]; [|done].
      simpl. rewrite (IH _ file); [|done].
      by rewrite set_downloadedFile_twice.
    + simpl. by apply IH.
Qed.

Lemma emit_all_uncaught events : ∀ st,
  captured events (downloadedFile st) = None →
  ∃ e st', emit_all events st = (Uncaught e, st').
Proof.
  induction events as [|[eventType eventData] rest IH]; intros st H; [done|].
  simpl in *. unfold bind, on_ytDlpEvent.
  destruct (announces_destination eventType eventData).
  - destruct (after_destination eventData) as [part|]; simpl.
    + by apply IH.
    + by eexists _, _.
  - simpl. by apply IH.
Qed.

Lemma captured_app before after current :
  captured (before ++ after) current
  = captured before current ≫= captured after.
Proof.
  revert current.
  induction before as [|[eventType eventData] rest IH]; intros current; [done|].
  simpl. destruct (announces_destination eventType eventData); [|done].
  by destruct (after_destination eventData).
Qed.

Lemma captured_quiet events current :
  Forall (λ ev, announces_destination ev.1 ev.2 = false) events →
  captured events current = Some current.
Proof.
  induction 1 as [|[eventType eventData] rest Hq _ IH]; [done|].
  simpl in *. by rewrite Hq.
Qed.

(** Whether the listener throws does not depend on the value it starts
    from. *)
Lemma captured_is_Some events a b :
  is_Some (captured events a) → is_Some (captured events b).
Proof.
  revert a b.
  induction events as [|[eventType eventData] rest IH]; intros a b; [by eauto|].
  simpl. destruct (announces_destination eventType eventData); [|by apply IH].
  by destruct (after_destination eventData).
Qed.

Lemma captured_last before eventType eventData part after current :
  is_Some (captured before current) →
  announces_destination eventType eventData = true →
  after_destination eventData = Some part →
  Forall (λ ev, announces_destination ev.1 ev.2 = false) after →
  captured (before ++ (eventType, eventData) :: after) current
  = Some (trim part).
Proof.
  intros [file Hb] Ha Hp Hq.
  rewrite captured_app, Hb. simpl. rewrite Ha, Hp.
  by apply captured_quiet.
Qed.

(** ** The steps of the route *)

Lemma await_download_close env u st file :
  ytdlp_end env = Close →
  captured (ytdlp_events env) (downloadedFile st) = Some file →
  ∃ st',
    await_download env u st
    = (if truthy file then Normal tt else Throw (Error (js "DownloadFailed")),
       st') ∧
    calls st' = calls st ++ [ytdlp_call env u] ∧
    response st' = response st ∧
    console st' = console st ∧
    downloadedFile st' = file ∧
    fs st' = after_download env st.
Proof.
  intros Hclose Hcap. unfold await_download, bind. simpl.
  erewrite emit_all_captured by (simpl; exact Hcap).
  rewrite Hclose. simpl.
  destruct (truthy file); simpl; by eexists.
Qed.

Lemma download_step_fails env u st file :
  ytdlp_end env = Close →
  captured (ytdlp_events env) (downloadedFile st) = Some file →
  truthy file = false ∨ file ∉ after_download env st →
  ∃ st',
    download_step env u st = (Throw (Error (js "DownloadFailed")), st') ∧
    calls st' = calls st ++ [ytdlp_call env u] ∧
    response st' = response st ∧
    downloadedFile st' = file ∧
    fs st' = after_download env st.
Proof.
  intros Hclose Hcap Hbad. unfold download_step.
  destruct (await_download_close env u
              (add_log (ConsoleLog [LText (js "[1/3] Downloading audio from: " ++ u)]) st)
              file Hclose Hcap)
    as (st1 & Hrun & Hcalls & Hresp & Hcons & Hfile & Hfs).
  unfold bind at 1. unfold console_log at 1, modify at 1.
  unfold bind at 1. rewrite Hrun.
  destruct (truthy file) eqn:Ht.
  - destruct Hbad as [|Hbad]; [done|].
    unfold bind, gets, existsSync. simpl. rewrite Hfile, Ht. simpl.
    rewrite bool_decide_eq_false_2; [|by rewrite Hfs].
    simpl. by eexists.
  - by eexists.
Qed.

(** ** Completions that reach the handler *)

Lemma settles_bind {A B} (m : M A) (k : A → M B) st :
  settles (m st) → (∀ a st', settles (k a st')) → settles (bind m k st).
Proof.
  unfold settles, bind. intros Hm Hk.
  destruct (m st) as [[a|e|e] st']; simpl in *; [apply Hk|done|done].
Qed.

Lemma settles_try_catch {A} (body : M A) handler st :
  settles (body st) → (∀ e st', settles (handler e st')) →
  settles (try_catch body handler st).
Proof.
  unfold settles, try_catch. intros Hm Hk.
  destruct (body st) as [[a|e|e] st']; simpl in *; [done|apply Hk|done].
Qed.

Lemma settles_if {A} (b : bool) (m1 m2 : M A) st :
  settles (m1 st) → settles (m2 st) → settles ((if b then m1 else m2) st).
Proof. by destruct b. Qed.

Lemma settles_emit_all events current st :
  is_Some (captured events current) → settles (emit_all events st).
Proof.
  intros Hc.
  destruct (captured_is_Some _ _ (downloadedFile st) Hc) as [file H].
  by rewrite (emit_all_captured _ _ _ H).
Qed.

Ltac settle :=
  repeat lazymatch goal with
    | |- settles (bind _ _ _) => apply settles_bind; [|intros ? ?]
    | |- settles (try_catch _ _ _) => apply settles_try_catch; [|intros ? ?]
    | |- settles ((if _ then _ else _) _) => apply settles_if
    | |- settles (console_log _ _) => done
    | |- settles (console_error _ _ _) => done
    | |- settles (invoke _ _) => done
    | |- settles (respond _ _ _) => done
    | |- settles (writes _ _) => done
    | |- settles (existsSync _ _) => done
    | |- settles (gets _ _) => done
    | |- settles (modify _ _) => done
    | |- settles (ret _ _) => done
    | |- settles (throw _ _) => done
    end.

Lemma settles_await_download env u current st :
  is_Some (captured (ytdlp_events env) current) →
  settles (await_download env u st).
Proof.
  intros Hc. unfold await_download. settle.
  - by eapply settles_emit_all.
  - destruct (ytdlp_end env); settle.
Qed.

Lemma settles_download_step env u current st :
  is_Some (captured (ytdlp_events env) current) →
  settles (download_step env u st).
Proof.
  intros Hc. unfold download_step. settle.
  by eapply settles_await_download.
Qed.

Lemma settles_convert_step env st : settles (convert_step env st).
Proof. unfold convert_step. settle. destruct (ffmpeg_error env); settle. Qed.

Lemma settles_on_error e st : ∃ st', on_error e st = (Normal tt, st').
Proof. unfold on_error. destruct (eqb _ _); by eexists. Qed.

Lemma settles_generateContent env p st : settles (generateContent env p st).
Proof. unfold generateContent. settle. destruct (inference env); settle. Qed.

Lemma settles_readFileSync p st : settles (readFileSync p st).
Proof. unfold readFileSync. settle. Qed.

Lemma settles_structured env p st :
  settles (Structured.transcribeAndTranslateWithGemini env p st).
Proof.
  unfold Structured.transcribeAndTranslateWithGemini, Structured.parse_reply.
  settle.
  - apply settles_readFileSync.
  - apply settles_generateContent.
  - destruct (JSON_parse _); settle.
Qed.

Lemma settles_plain env p st :
  settles (Plain.transcribeAndTranslateWithGemini env p st).
Proof.
  unfold Plain.transcribeAndTranslateWithGemini. settle.
  - apply settles_readFileSync.
  - apply settles_generateContent.
Qed.

(** ** The [finally] block *)

Ltac unfold_cleanup :=
  unfold cleanup, unlinkSync, bind, gets, existsSync, console_log, modify, ret,
    throw; simpl.

Lemma cleanup_frame env st :
  response (cleanup env st).2 = response st ∧
  calls (cleanup env st).2 = calls st ∧
  downloadedFile (cleanup env st).2 = downloadedFile st ∧
  fs (cleanup env st).2 ⊆ fs st.
Proof.
  unfold_cleanup.
  destruct (truthy (downloadedFile st) && bool_decide (downloadedFile st ∈ fs st));
    [destruct (unlink_error env (downloadedFile st))|]; simpl;
    repeat case_bool_decide; simpl;
    try destruct (unlink_error env (audioFilePath env)); simpl;
    repeat split; try done; set_solver.
Qed.

Lemma cleanup_returns env st st' :
  cleanup env st = (Normal tt, st') →
  (downloadedFile st' ≠ [] → downloadedFile st' ∉ fs st') ∧
  audioFilePath env ∉ fs st' ∧
  (∀ p, p ≠ downloadedFile st → p ≠ audioFilePath env →
        (p ∈ fs st' ↔ p ∈ fs st)).
Proof.
  unfold_cleanup.
  destruct (downloadedFile st) as [|c file] eqn:Hfile; simpl.
  - case_bool_decide; simpl.
    + destruct (unlink_error env (audioFilePath env)); simpl; [done|].
      intros [= <-]. simpl. rewrite Hfile. set_solver.
    + intros [= <-]. simpl. rewrite Hfile. set_solver.
  - case_bool_decide; simpl.
    + destruct (unlink_error env (c :: file)); simpl; [done|].
      case_bool_decide; simpl.
      * destruct (unlink_error env (audioFilePath env)); simpl; [done|].
        intros [= <-]. simpl. rewrite Hfile. set_solver.
      * intros [= <-]. simpl. rewrite Hfile. set_solver.
    + case_bool_decide; simpl.
      * destruct (unlink_error env (audioFilePath env)); simpl; [done|].
        intros [= <-]. simpl. rewrite Hfile. set_solver.
      * intros [= <-]. simpl. rewrite Hfile. set_solver.
Qed.

Lemma cleanup_total env st :
  unlink_error env (downloadedFile st) = None →
  unlink_error env (audioFilePath env) = None →
  ∃ st', cleanup env st = (Normal tt, st').
Proof.
  intros Hraw Hwav. unfold_cleanup. rewrite Hraw.
  destruct (truthy (downloadedFile st) && _); simpl;
    case_bool_decide; simpl; rewrite ?Hwav; simpl; by eexists.
Qed.

(** A deletion of the raw file that throws ends the block on the spot:
    nothing is removed and nothing is logged. *)
Lemma cleanup_raw_denied env st e :
  truthy (downloadedFile st) = true →
  downloadedFile st ∈ fs st →
  unlink_error env (downloadedFile st) = Some e →
  cleanup env st = (Throw e, st).
Proof.
  intros Ht Hin He. unfold_cleanup.
  rewrite Ht, bool_decide_eq_true_2 by done. simpl. by rewrite He.
Qed.

(** A deletion of the waveform file that throws comes after the raw file is
    gone, and before the final log line. *)
Lemma cleanup_wav_denied env st e :
  unlink_error env (downloadedFile st) = None →
  audioFilePath env ≠ downloadedFile st →
  audioFilePath env ∈ fs st →
  unlink_error env (audioFilePath env) = Some e →
  ∃ st', cleanup env st = (Throw e, st') ∧
         console st' = console st ∧ audioFilePath env ∈ fs st'.
Proof.
  intros Hraw Hne Hin He. unfold_cleanup. rewrite Hraw.
  destruct (truthy (downloadedFile st) && _); simpl.
  - rewrite bool_decide_eq_true_2 by set_solver. simpl. rewrite He. simpl.
    eexists. split; [done|]. simpl. split; [done|]. set_solver.
  - rewrite bool_decide_eq_true_2 by done. simpl. rewrite He.
    by eexists.
Qed.

(** ** The route, for any transcription function *)

Section RouteFacts.

Context {R : Type}.
Variable transcribe : Env → jsstring → M R.
Variable success_body : jsstring → R → JValue.
Hypothesis transcribe_settles : ∀ env p st, settles (transcribe env p st).

Let route := transcribe_route transcribe success_body.
Let attempt env u := try_catch (pipeline transcribe success_body env u) on_error.

Lemma route_started env u st :
  truthy u = true →
  route env {| url := Some u |} st
  = try_finally (attempt env u) (cleanup env) (set_downloadedFile [] st).
Proof. intros Hu. unfold route, transcribe_route. simpl. by rewrite Hu. Qed.

Lemma route_without_url env req st :
  match url req with Some (_ :: _) => False | _ => True end →
  ∃ st', route env req st = (Normal tt, st') ∧ fs st' = fs st.
Proof.
  unfold route, transcribe_route. destruct (url req) as [[|c u]|]; [|done|];
    intros _; by eexists.
Qed.

Lemma settles_pipeline env u st :
  is_Some (captured (ytdlp_events env) []) →
  settles (pipeline transcribe success_body env u st).
Proof.
  intros Hc. unfold pipeline. settle.
  - by eapply settles_download_step.
  - apply settles_convert_step.
  - apply transcribe_settles.
Qed.

(** The [try] / [catch] never lets an exception through. *)
Lemma attempt_returns env u st :
  is_Some (captured (ytdlp_events env) []) →
  ∃ st', attempt env u st = (Normal tt, st').
Proof.
  intros Hc. unfold attempt, try_catch.
  pose proof (settles_pipeline env u st Hc) as Hs. unfold settles in Hs.
  destruct (pipeline _ _ _ _ _) as [[[]|e|e] st1]; simpl in Hs;
    [by eexists|apply settles_on_error|done].
Qed.

Lemma route_cleans_up env u st st' :
  truthy u = true →
  route env {| url := Some u |} st = (Normal tt, st') →
  (downloadedFile st' ≠ [] → downloadedFile st' ∉ fs st') ∧
  audioFilePath env ∉ fs st'.
Proof.
  intros Hu. rewrite route_started by done. unfold try_finally.
  destruct (attempt env u _) as [[[]|e|e] st1]; [| |done];
    destruct (cleanup env st1) as [[[]|e'|e'] st2] eqn:Hc; try done;
    intros [= <-]; by destruct (cleanup_returns _ _ _ Hc) as (? & ? & _).
Qed.

Lemma route_returns env u st :
  truthy u = true →
  is_Some (captured (ytdlp_events env) []) →
  (∀ p, unlink_error env p = None) →
  ∃ st', route env {| url := Some u |} st = (Normal tt, st').
Proof.
  intros Hu Hc Hdel. rewrite route_started by done. unfold try_finally.
  destruct (attempt_returns env u (set_downloadedFile [] st) Hc)
    as [st1 ->].
  destruct (cleanup_total env st1 (Hdel _) (Hdel _)) as [st2 ->].
  by eexists.
Qed.

(** The response and the collaborators invoked are settled before the
    [finally] block runs. *)
Lemma route_response env u st :
  truthy u = true →
  response (route env {| url := Some u |} st).2
  = response (attempt env u (set_downloadedFile [] st)).2 ∧
  calls (route env {| url := Some u |} st).2
  = calls (attempt env u (set_downloadedFile [] st)).2.
Proof.
  intros Hu. rewrite route_started by done. unfold try_finally.
  destruct (attempt env u _) as [[[]|e|e] st1]; [| |done];
    pose proof (cleanup_frame env st1) as (Hr & Hk & _);
    destruct (cleanup env st1) as [[[]|e'|e'] st2]; done.
Qed.

(** What the route does when a deletion in the [finally] block throws. *)
Lemma route_raw_denied env u st e :
  truthy u = true →
  is_Some (captured (ytdlp_events env) []) →
  let st1 := (attempt env u (set_downloadedFile [] st)).2 in
  truthy (downloadedFile st1) = true →
  downloadedFile st1 ∈ fs st1 →
  unlink_error env (downloadedFile st1) = Some e →
  route env {| url := Some u |} st = (Throw e, st1).
Proof.
  intros Hu Hc st1 Ht Hin He. rewrite route_started by done.
  unfold try_finally. subst st1.
  destruct (attempt_returns env u (set_downloadedFile [] st) Hc)
    as [st1 Hst1].
  rewrite Hst1 in *. simpl in *.
  by rewrite (cleanup_raw_denied env st1 e).
Qed.

End RouteFacts.

Lemma cleanup_throws env st e st' :
  cleanup env st = (Throw e, st') →
  (∃ p, (p = downloadedFile st ∨ p = audioFilePath env) ∧
        p ∈ fs st' ∧ unlink_error env p = Some e) ∧
  console st' = console st.
Proof.
  unfold_cleanup.
  destruct (truthy (downloadedFile st) && bool_decide (downloadedFile st ∈ fs st))
    eqn:Hraw.
  - apply andb_true_iff in Hraw as [_ Hin%bool_decide_eq_true_1].
    destruct (unlink_error env (downloadedFile st)) as [e0|] eqn:He0; simpl.
    + intros [= <- <-]. split; [|done]. exists (downloadedFile st). by auto.
    + destruct (bool_decide (audioFilePath env ∈ _)) eqn:Hwav; simpl; [|done].
      apply bool_decide_eq_true_1 in Hwav.
      destruct (unlink_error env (audioFilePath env)) as [e1|] eqn:He1;
        simpl; [|done].
      intros [= <- <-]. split; [|done]. exists (audioFilePath env). by auto.
  - simpl.
    destruct (bool_decide (audioFilePath env ∈ _)) eqn:Hwav; simpl; [|done].
    apply bool_decide_eq_true_1 in Hwav.
    destruct (unlink_error env (audioFilePath env)) as [e1|] eqn:He1;
      simpl; [|done].
    intros [= <- <-]. split; [|done]. exists (audioFilePath env). by auto.
Qed.

Section Responses.

Context {R : Type}.
Variable transcribe : Env → jsstring → M R.
Variable success_body : jsstring → R → JValue.

Lemma pipeline_success_inv env u st st' :
  pipeline transcribe success_body env u st = (Normal tt, st') →
  ∃ result s1 s2,
    transcribe env (audioFilePath env) s1 = (Normal result, s2) ∧
    response st' = Some {| status := 200; body := success_body u result |}.
Proof.
  unfold pipeline, bind.
  destruct (download_step env u st) as [[[]|?|?] s1]; [|done..].
  destruct (convert_step env s1) as [[[]|?|?] s2]; [|done..].
  simpl. destruct (transcribe env _ _) as [[result|?|?] s3] eqn:Ht; [|done..].
  simpl. intros [= <-]. eexists result, _, s3. split; [exact Ht|done].
Qed.

(** The [try] / [catch] always answers, unless the listener threw. *)
Lemma attempt_responds env u st st' :
  try_catch (pipeline transcribe success_body env u) on_error st
  = (Normal tt, st') →
  is_Some (response st').
Proof.
  unfold try_catch.
  destruct (pipeline _ _ _ _ _) as [[[]|e|e] s1] eqn:Hp; [| |done].
  - intros [= <-].
    destruct (pipeline_success_inv _ _ _ _ Hp) as (r & _ & _ & _ & ->).
    by eexists.
  - unfold on_error. destruct (eqb _ _); intros [= <-]; by eexists.
Qed.

Lemma attempt_never_throws env u st e st' :
  try_catch (pipeline transcribe success_body env u) on_error st
  ≠ (Throw e, st').
Proof.
  unfold try_catch.
  destruct (pipeline _ _ _ _ _) as [[[]|e0|e0] s1]; [done| |done].
  by destruct (settles_on_error e0 s1) as [s2 ->].
Qed.

End Responses.

(** ** The transcription function *)

Lemma parse_reply_ok text v st :
  JSON_parse text = Some v → Structured.parse_reply text st = (Normal v, st).
Proof. intros H. unfold Structured.parse_reply, try_catch. by rewrite H. Qed.

Lemma parse_reply_fails text st :
  JSON_parse text = None →
  Structured.parse_reply text st
  = (Throw (Error (js "Received an invalid response format from the AI model.")),
     add_log (ConsoleError
                [LText (js "Failed to parse JSON response from Gemini:");
                 LText text]) st).
Proof. intros H. unfold Structured.parse_reply, try_catch. by rewrite H. Qed.

(** Whatever goes wrong inside the function, the caller sees one and the
    same error. *)
Lemma transcription_error_uniform env p st e st' :
  Structured.transcribeAndTranslateWithGemini env p st = (Throw e, st') →
  e = gemini_failure.
Proof.
  unfold Structured.transcribeAndTranslateWithGemini, try_catch.
  destruct (bind _ _ st) as [[v|e0|e0] s1]; [done| |done].
  by intros [= <- _].
Qed.

Lemma transcription_succeeds env p st text v :
  p ∈ fs st →
  inference env = Reply text →
  JSON_parse (Structured.strip_fence text) = Some v →
  Structured.transcribeAndTranslateWithGemini env p st
  = (Normal v, add_call (CallGenerateContent p) st).
Proof.
  intros Hin Hreply Hparse.
  unfold Structured.transcribeAndTranslateWithGemini, try_catch, readFileSync,
    generateContent, bind, existsSync, gets, invoke, modify. simpl.
  rewrite bool_decide_eq_true_2 by done. simpl. rewrite Hreply. simpl.
  by rewrite parse_reply_ok with (v := v).
Qed.

Lemma transcription_success_inv env p st v st' :
  Structured.transcribeAndTranslateWithGemini env p st = (Normal v, st') →
  ∃ text, p ∈ fs st ∧ inference env = Reply text ∧
          JSON_parse (Structured.strip_fence text) = Some v.
Proof.
  unfold Structured.transcribeAndTranslateWithGemini, try_catch, readFileSync,
    generateContent, bind, existsSync, gets, invoke, modify. simpl.
  case_bool_decide as Hin; simpl; [|done].
  destruct (inference env) as [text|err]; simpl; [|done].
  destruct (JSON_parse (Structured.strip_fence text)) as [v0|] eqn:Hparse.
  - rewrite (parse_reply_ok _ v0) by done. intros [= <- _]. by exists text.
  - by rewrite parse_reply_fails.
Qed.

(** A reply that does not parse: the inner [catch] logs the cleaned text and
    throws its own error, which the outer [catch] logs and replaces. *)
Lemma parse_failure_masked env p st text :
  p ∈ fs st →
  inference env = Reply text →
  JSON_parse (Structured.strip_fence text) = None →
  Structured.transcribeAndTranslateWithGemini env p st
  = (Throw gemini_failure,
     add_log
       (ConsoleError
          [LText (js "Error during Gemini processing:");
           LError (Error
                     (js "Received an invalid response format from the AI model."))])
       (add_log
          (ConsoleError
             [LText (js "Failed to parse JSON response from Gemini:");
              LText (Structured.strip_fence text)])
          (add_call (CallGenerateContent p) st))).
Proof.
  intros Hin Hreply Hparse.
  unfold Structured.transcribeAndTranslateWithGemini, try_catch, readFileSync,
    generateContent, bind, existsSync, gets, invoke, modify. simpl.
  rewrite bool_decide_eq_true_2 by done. simpl. rewrite Hreply. simpl.
  by rewrite parse_reply_fails.
Qed.

Lemma plain_success_inv env p st t st' :
  Plain.transcribeAndTranslateWithGemini env p st = (Normal t, st') →
  ∃ text, inference env = Reply text ∧ t = trim text.
Proof.
  unfold Plain.transcribeAndTranslateWithGemini, try_catch, readFileSync,
    generateContent, bind, existsSync, gets, invoke, modify. simpl.
  case_bool_decide as Hin; simpl; [|done].
  destruct (inference env) as [text|err]; simpl; [|done].
  intros [= <- _]. by exists text.
Qed.

(** ** Job identifiers and file names *)

Lemma js_inj a b : js a = js b → a = b.
Proof.
  unfold js. intros H.
  rewrite <- (string_of_list_ascii_of_string a),
          <- (string_of_list_ascii_of_string b).
  f_equal. revert H.
  generalize (list_ascii_of_string a) (list_ascii_of_string b).
  induction l as [|x l IH]; intros [|y l']; simpl; try done.
  intros [= Hxy Hl]. f_equal; [|by apply IH].
  by rewrite <- (ascii_N_embedding x), <- (ascii_N_embedding y), Hxy.
Qed.

Lemma decimal_inj a b : decimal a = decimal b → a = b.
Proof.
  unfold decimal. intros H%js_inj.
  apply (f_equal NilEmpty.uint_of_string) in H.
  rewrite !NilEmpty.usu in H. injection H as H.
  apply (f_equal N.of_uint) in H.
  by rewrite !DecimalN.Unsigned.of_to in H.
Qed.

Lemma job_file_inj dir a b suffix :
  path_join dir (decimal a ++ suffix) = path_join dir (decimal b ++ suffix) →
  a = b.
Proof.
  unfold path_join. intros H.
  apply app_inv_head, app_inv_head, app_inv_tail in H.
  by apply decimal_inj.
Qed.

(** ** Files that the route leaves alone *)

Lemma keeps_bind {A B} (m : M A) (k : A → M B) :
  keeps m → (∀ a, keeps (k a)) → keeps (bind m k).
Proof.
  unfold keeps, bind. intros Hm Hk st. specialize (Hm st).
  destruct (m st) as [[a|e|e] st']; simpl in *; [|done..].
  specialize (Hk a st'). set_solver.
Qed.

Lemma keeps_try_catch {A} (body : M A) handler :
  keeps body → (∀ e, keeps (handler e)) → keeps (try_catch body handler).
Proof.
  unfold keeps, try_catch. intros Hm Hk st. specialize (Hm st).
  destruct (body st) as [[a|e|e] st']; simpl in *; [done| |done].
  specialize (Hk e st'). set_solver.
Qed.

Lemma keeps_if {A} (b : bool) (m1 m2 : M A) :
  keeps m1 → keeps m2 → keeps (if b then m1 else m2).
Proof. by destruct b. Qed.

Lemma keeps_writes paths : keeps (writes paths).
Proof. intros st. simpl. set_solver. Qed.

Lemma keeps_same {A} (m : M A) : (∀ st, fs (m st).2 = fs st) → keeps m.
Proof. intros H st. by rewrite H. Qed.

Lemma keeps_emit_all events : keeps (emit_all events).
Proof.
  induction events as [|[eventType eventData] rest IH];
    [by apply keeps_same|].
  simpl. apply keeps_bind; [|done].
  unfold on_ytDlpEvent. destruct (announces_destination _ _);
    [|by apply keeps_same].
  destruct (after_destination _); by apply keeps_same.
Qed.

Ltac keep :=
  repeat lazymatch goal with
    | |- keeps (bind _ _) => apply keeps_bind; [|intros ?]
    | |- keeps (try_catch _ _) => apply keeps_try_catch; [|intros ?]
    | |- keeps (if _ then _ else _) => apply keeps_if
    | |- keeps (writes _) => apply keeps_writes
    | |- keeps (emit_all _) => apply keeps_emit_all
    | |- keeps (console_log _) => by apply keeps_same
    | |- keeps (console_error _ _) => by apply keeps_same
    | |- keeps (invoke _) => by apply keeps_same
    | |- keeps (respond _ _) => by apply keeps_same
    | |- keeps (existsSync _) => by apply keeps_same
    | |- keeps (gets _) => by apply keeps_same
    | |- keeps (ret _) => by apply keeps_same
    | |- keeps (throw _) => by apply keeps_same
    end.

Lemma keeps_structured env p :
  keeps (Structured.transcribeAndTranslateWithGemini env p).
Proof.
  unfold Structured.transcribeAndTranslateWithGemini, Structured.parse_reply,
    readFileSync, generateContent.
  keep.
  - destruct (inference env); keep.
  - destruct (JSON_parse _); keep.
Qed.

Lemma keeps_attempt env u :
  keeps (try_catch
           (pipeline Structured.transcribeAndTranslateWithGemini
              Structured.success_body env u) on_error).
Proof.
  unfold pipeline, download_step, await_download, convert_step, on_error.
  keep.
  - destruct (ytdlp_end env); keep.
  - destruct (ffmpeg_error env); keep.
  - apply keeps_structured.
Qed.

(** * The properties of the specification *)

(** ** Temporary files after the handler returns *)

(** C1. After the handler returns, the captured raw media file and the
    waveform file of the job are both absent from the filesystem, in both
    revisions and whatever the outcome of the pipeline; a request without a
    URL starts no job and leaves the filesystem as it was.  The handler does
    return whenever the listener does not throw and no deletion throws. *)
Theorem temporary_files_removed env req st :
  (∀ st',
     Structured.route env req st = (Normal tt, st') ∨
     Plain.route env req st = (Normal tt, st') →
     match url req with
     | Some (_ :: _) =>
         (downloadedFile st' ≠ [] → downloadedFile st' ∉ fs st') ∧
         audioFilePath env ∉ fs st'
     | _ => fs st' = fs st
     end) ∧
  (is_Some (captured (ytdlp_events env) []) →
   (∀ p, unlink_error env p = None) →
   (∃ st', Structured.route env req st = (Normal tt, st')) ∧
   (∃ st', Plain.route env req st = (Normal tt, st'))).
Proof.
  split.
  - intros st' Hrun. destruct (url req) as [[|c u]|] eqn:Hurl.
    + destruct (route_without_url Structured.transcribeAndTranslateWithGemini
                  Structured.success_body env req st) as (s1 & H1 & Hfs1);
        [by rewrite Hurl|].
      destruct (route_without_url Plain.transcribeAndTranslateWithGemini
                  Plain.success_body env req st) as (s2 & H2 & Hfs2);
        [by rewrite Hurl|].
      unfold Structured.route, Plain.route in Hrun.
      destruct Hrun as [Hrun|Hrun]; congruence.
    + destruct req as [r]. simpl in Hurl. subst r.
      destruct Hrun as [Hrun|Hrun];
        eapply route_cleans_up in Hrun; done.
    + destruct (route_without_url Structured.transcribeAndTranslateWithGemini
                  Structured.success_body env req st) as (s1 & H1 & Hfs1);
        [by rewrite Hurl|].
      destruct (route_without_url Plain.transcribeAndTranslateWithGemini
                  Plain.success_body env req st) as (s2 & H2 & Hfs2);
        [by rewrite Hurl|].
      unfold Structured.route, Plain.route in Hrun.
      destruct Hrun as [Hrun|Hrun]; congruence.
  - intros Hc Hdel. destruct (url req) as [[|c u]|] eqn:Hurl.
    + split; [destruct (route_without_url Structured.transcribeAndTranslateWithGemini
                  Structured.success_body env req st) as (s1 & H1 & _)
             |destruct (route_without_url Plain.transcribeAndTranslateWithGemini
                  Plain.success_body env req st) as (s1 & H1 & _)];
        try (by rewrite Hurl); by eexists.
    + destruct req as [r]. simpl in Hurl. subst r.
      split; apply route_returns; try done;
        [apply settles_structured|apply settles_plain].
    + split; [destruct (route_without_url Structured.transcribeAndTranslateWithGemini
                  Structured.success_body env req st) as (s1 & H1 & _)
             |destruct (route_without_url Plain.transcribeAndTranslateWithGemini
                  Plain.success_body env req st) as (s1 & H1 & _)];
        try (by rewrite Hurl); by eexists.
Qed.

Lemma temporary_files_removed_witness :
  (raw_path ∉ fs (Structured.route working reel st0).2 ∧
   audioFilePath working ∉ fs (Structured.route working reel st0).2) ∧
  ∃ st', Plain.route unreachable reel st0 = (Normal tt, st').
Proof.
  split.
  - destruct (temporary_files_removed working reel st0) as [Habsent _].
    specialize (Habsent (Structured.route working reel st0).2).
    simpl in Habsent.
    destruct Habsent as [Hraw Hwav]; [left; vm_compute; reflexivity|].
    split; [|exact Hwav].
    assert (Hfile : downloadedFile (Structured.route working reel st0).2
                    = raw_path) by (vm_compute; reflexivity).
    rewrite <- Hfile. apply Hraw. rewrite Hfile. discriminate.
  - destruct (temporary_files_removed unreachable reel st0) as [_ Hreturns].
    destruct Hreturns as [_ Hplain]; [by eexists|done|exact Hplain].
Defined.

(** ** A deletion that throws *)

(** A deletion of the waveform file that throws: the raw media file is
    gone by then when it was on disk, and nothing is logged. *)
Lemma cleanup_wav_throws env st e :
  (truthy (downloadedFile st) = true → downloadedFile st ∈ fs st →
   unlink_error env (downloadedFile st) = None) →
  audioFilePath env ∈ fs st →
  unlink_error env (audioFilePath env) = Some e →
  cleanup env st
  = (Throw e,
     if truthy (downloadedFile st) && bool_decide (downloadedFile st ∈ fs st)
     then set_fs (λ files, files ∖ {[ downloadedFile st ]}) st
     else st).
Proof.
  intros Hraw Hin He. unfold_cleanup.
  destruct (truthy (downloadedFile st)) eqn:Ht; cbn [andb].
  - destruct (bool_decide (downloadedFile st ∈ fs st)) eqn:Hd.
    + apply bool_decide_eq_true_1 in Hd.
      assert (Hne : audioFilePath env ≠ downloadedFile st).
      { intros Heq. rewrite Heq in He. rewrite Hraw in He; done. }
      rewrite Hraw by done. cbn [fst snd fs set_fs].
      rewrite bool_decide_eq_true_2 by set_solver.
      by rewrite He.
    + rewrite bool_decide_eq_true_2 by done. by rewrite He.
  - rewrite bool_decide_eq_true_2 by done. by rewrite He.
Qed.

(** C2 (as the code has it).  A deletion that throws in the [finally] block
    is not caught.  Whenever the handler ends with an exception [e], that
    exception is the one [unlinkSync] threw for the raw media file or for the
    waveform file; the file is still on disk, nothing was logged after the
    [catch] block, and the response, sent before the cleanup began, is the
    one the same run produces when deletions succeed.  Conversely, when the
    deletion of the raw media file throws, the handler ends with that
    exception in the very state the [catch] block left; and when the raw
    media file raises no error and the deletion of the waveform file throws,
    the handler ends with that exception, in the state the [catch] block
    left less the raw media file, which is deleted by then. *)
Theorem cleanup_error_escapes env u st :
  truthy u = true →
  let attempt :=
    try_catch
      (pipeline Structured.transcribeAndTranslateWithGemini
         Structured.success_body env u) on_error
      (set_downloadedFile [] st) in
  let reliable := with_unlink_error env (λ _, None) in
  (∀ e st',
     Structured.route env {| url := Some u |} st = (Throw e, st') →
     (∃ p, (p = downloadedFile st' ∨ p = audioFilePath env) ∧
           p ∈ fs st' ∧ unlink_error env p = Some e) ∧
     console st' = console attempt.2 ∧
     is_Some (response st') ∧
     response st'
     = response (Structured.route reliable {| url := Some u |} st).2) ∧
  (∀ e,
     is_Some (captured (ytdlp_events env) []) →
     truthy (downloadedFile attempt.2) = true →
     downloadedFile attempt.2 ∈ fs attempt.2 →
     unlink_error env (downloadedFile attempt.2) = Some e →
     Structured.route env {| url := Some u |} st = (Throw e, attempt.2)) ∧
  (∀ e,
     is_Some (captured (ytdlp_events env) []) →
     (truthy (downloadedFile attempt.2) = true →
      downloadedFile attempt.2 ∈ fs attempt.2 →
      unlink_error env (downloadedFile attempt.2) = None) →
     audioFilePath env ∈ fs attempt.2 →
     unlink_error env (audioFilePath env) = Some e →
     Structured.route env {| url := Some u |} st
     = (Throw e,
        if truthy (downloadedFile attempt.2)
           && bool_decide (downloadedFile attempt.2 ∈ fs attempt.2)
        then set_fs (λ files, files ∖ {[ downloadedFile attempt.2 ]}) attempt.2
        else attempt.2)).
Proof.
  intros Hu attempt reliable. split; [|split].
  - intros e st' Hrun.
    destruct (route_response Structured.transcribeAndTranslateWithGemini
                Structured.success_body reliable u st Hu) as [Hresp _].
    unfold Structured.route in *. rewrite Hresp. clear Hresp.
    change (try_catch _ _ _) with attempt.
    rewrite route_started in Hrun by done. unfold try_finally in Hrun.
    change (try_catch _ _ _) with attempt in Hrun.
    destruct attempt as [[[]|e0|e0] s1] eqn:Ha; simpl.
    + pose proof (cleanup_frame env s1) as (Hr & _ & Hd & _).
      destruct (cleanup env s1) as [[[]|e1|e1] s2] eqn:Hc; try done.
      injection Hrun as <- <-. simpl in *.
      destruct (cleanup_throws _ _ _ _ Hc) as [(p & Hp & Hin & He) Hcons].
      rewrite Hd, Hr. repeat split; try done.
      * by exists p.
      * by eapply attempt_responds.
    + by apply attempt_never_throws in Ha.
    + done.
  - intros e Hc Ht Hin He.
    by apply (route_raw_denied Structured.transcribeAndTranslateWithGemini
                Structured.success_body settles_structured).
  - intros e Hc Hraw Hwav He.
    unfold Structured.route. rewrite route_started by done.
    unfold try_finally. fold attempt.
    destruct (attempt_returns Structured.transcribeAndTranslateWithGemini
                Structured.success_body settles_structured env u
                (set_downloadedFile [] st) Hc) as [s1 Hs1].
    change (try_catch _ _ _) with attempt in Hs1.
    rewrite Hs1 in *. cbn [snd] in *.
    by rewrite (cleanup_wav_throws env s1 e).
Qed.

Lemma cleanup_error_escapes_witness :
  (Structured.route undeletable reel st0).1 = Throw eperm ∧
  response (Structured.route undeletable reel st0).2
  = response (Structured.route working reel st0).2 ∧
  (Structured.route wav_undeletable reel st0).1 = Throw eperm ∧
  raw_path ∉ fs (Structured.route wav_undeletable reel st0).2 ∧
  audioFilePath working ∈ fs (Structured.route wav_undeletable reel st0).2.
Proof.
  destruct (cleanup_error_escapes undeletable
              (js "https://valid.example/reel") st0)
    as (Hescaped & Hraw & _); [reflexivity|].
  destruct (cleanup_error_escapes wav_undeletable
              (js "https://valid.example/reel") st0)
    as (_ & _ & Hwav); [reflexivity|].
  unfold reel. split; [|split].
  - rewrite (Hraw eperm);
      [done|by eexists|reflexivity|by vm_compute|reflexivity].
  - destruct (Hescaped eperm
                (Structured.route undeletable
                   {| url := Some (js "https://valid.example/reel") |} st0).2)
      as (_ & _ & _ & ->); vm_compute; reflexivity.
  - rewrite (Hwav eperm);
      [|by eexists|intros _ _; vm_compute; reflexivity
       |vm_compute; reflexivity|vm_compute; reflexivity].
    split; [reflexivity|]. split; vm_compute; [discriminate|reflexivity].
Defined.

(** C2 as stated fails: with a raw media file that cannot be deleted, the
    run that otherwise returns ends with the deletion error instead, logs
    nothing about it (not even the final log line), and leaves both
    temporary files on disk. *)
Lemma unlink_failure_rejects_handler :
  (Structured.route working reel st0).1 = Normal tt ∧
  (Structured.route undeletable reel st0).1 = Throw eperm ∧
  console (Structured.route undeletable reel st0).2
  ++ [ConsoleLog [LText (js "Temporary files cleaned up.")]]
  = console (Structured.route working reel st0).2 ∧
  raw_path ∈ fs (Structured.route undeletable reel st0).2 ∧
  audioFilePath undeletable ∈ fs (Structured.route undeletable reel st0).2.
Proof. repeat split; by vm_compute. Qed.

(** ** A process-level error of the download *)

(** C3 (as the code has it).  When the download process emits ['error'],
    the awaited download rejects with that very error object, so the [try]
    block fails with it and not with [DownloadFailed]; nothing but yt-dlp is
    invoked.  The response is 500 with the generic message and the error's
    message as details, or 400 with the download message in the one case
    where the error's message is exactly [DownloadFailed]. *)
Theorem process_error_propagates env u st err :
  truthy u = true →
  ytdlp_end env = ProcessError err →
  is_Some (captured (ytdlp_events env) []) →
  (pipeline Structured.transcribeAndTranslateWithGemini Structured.success_body
     env u (set_downloadedFile [] st)).1 = Throw err ∧
  response (Structured.route env {| url := Some u |} st).2
  = Some (if eqb (message err) (js "DownloadFailed") then
            {| status := 400;
               body := JObject
                 {[ js "error" := JString download_failed_message ]} |}
          else
            {| status := 500;
               body := JObject
                 (<[ js "error" :=
                       JString (js "An internal server error occurred.") ]>
                  {[ js "details" := JString (message err) ]}) |}) ∧
  calls (Structured.route env {| url := Some u |} st).2
  = calls st ++ [ytdlp_call env u].
Proof.
  intros Hu Hend [file Hcap].
  assert (∃ st1,
    pipeline Structured.transcribeAndTranslateWithGemini
      Structured.success_body env u (set_downloadedFile [] st)
    = (Throw err, st1) ∧
    response st1 = response st ∧ calls st1 = calls st ++ [ytdlp_call env u])
    as (st1 & Hp & Hresp & Hcalls).
  { unfold pipeline, download_step, await_download, bind. simpl.
    erewrite emit_all_captured by (simpl; exact Hcap).
    rewrite Hend. by eexists. }
  split; [by rewrite Hp|].
  unfold Structured.route.
  destruct (route_response Structured.transcribeAndTranslateWithGemini
              Structured.success_body env u st Hu) as [-> ->].
  unfold try_catch. rewrite Hp. unfold on_error.
  destruct (eqb (message err) (js "DownloadFailed")); simpl; by rewrite Hcalls.
Qed.

Lemma process_error_propagates_witness :
  (Structured.route crashing reel st0).1 = Normal tt ∧
  response (Structured.route crashing reel st0).2
  = Some {| status := 500;
            body := JObject
              (<[ js "error" :=
                    JString (js "An internal server error occurred.") ]>
               {[ js "details" := JString (js "spawn yt-dlp ENOENT") ]}) |}.
Proof.
  split; [by vm_compute|].
  destruct (process_error_propagates crashing
              (js "https://valid.example/reel") st0 spawn_error)
    as (_ & Hresp & _); [reflexivity|reflexivity|by eexists|].
  exact Hresp.
Defined.

(** C3 as stated fails: a process-level error event yields a 500 response,
    and the [try] block does not fail with [DownloadFailed]. *)
Lemma process_error_answers_500 :
  ytdlp_end crashing = ProcessError spawn_error ∧
  (pipeline Structured.transcribeAndTranslateWithGemini Structured.success_body
     crashing (js "https://valid.example/reel") (set_downloadedFile [] st0)).1
  ≠ Throw (Error (js "DownloadFailed")) ∧
  status <$> response (Structured.route crashing reel st0).2 = Some 500%Z.
Proof. repeat split; by vm_compute. Qed.

(** ** A reply that does not parse *)

(** C4 (the code at a failing input).  A reply that does not parse and a
    failed call to the model end in the same way: the function throws the
    same error for both, and the route answers both with the same 500
    response, whose details are the generic Gemini message.  The
    unparseable text is logged on the server and is absent from the
    response. *)
Theorem parse_failure_reported_as_inference_failure :
  let wav := audioFilePath working in
  let st := set_fs (λ _, {[ wav ]}) st0 in
  (Structured.transcribeAndTranslateWithGemini garbled wav st).1
  = Throw gemini_failure ∧
  (Structured.transcribeAndTranslateWithGemini unreachable wav st).1
  = Throw gemini_failure ∧
  response (Structured.route garbled reel st0).2
  = response (Structured.route unreachable reel st0).2 ∧
  response (Structured.route garbled reel st0).2
  = Some {| status := 500;
            body := JObject
              (<[ js "error" :=
                    JString (js "An internal server error occurred.") ]>
               {[ js "details" := JString (message gemini_failure) ]}) |} ∧
  ConsoleError [LText (js "Failed to parse JSON response from Gemini:");
                LText (js "not json")]
  ∈ console (Structured.route garbled reel st0).2.
Proof.
  intros wav st. split; [|split; [|split; [|split]]].
  - by rewrite (parse_failure_masked garbled wav st (js "not json")).
  - by vm_compute.
  - by vm_compute.
  - by vm_compute.
  - vm_compute.
    repeat first [ by left | right ].
Qed.

(** ** What counts as a successful transcription *)

(** What the function returns: it succeeds exactly when the waveform file
    can be read, the model replies, and the cleaned reply parses as JSON;
    its result is then the parsed value itself, whatever its shape. *)
Theorem transcription_result_is_parsed_reply env p st :
  (∀ v st',
     Structured.transcribeAndTranslateWithGemini env p st = (Normal v, st') →
     ∃ text, p ∈ fs st ∧ inference env = Reply text ∧
             JSON_parse (Structured.strip_fence text) = Some v) ∧
  (∀ text v,
     p ∈ fs st →
     inference env = Reply text →
     JSON_parse (Structured.strip_fence text) = Some v →
     Structured.transcribeAndTranslateWithGemini env p st
     = (Normal v, add_call (CallGenerateContent p) st)).
Proof.
  split.
  - intros v st'. apply transcription_success_inv.
  - intros text v. apply transcription_succeeds.
Qed.

Lemma transcription_result_is_parsed_reply_witness :
  (Structured.transcribeAndTranslateWithGemini empty_object
     (audioFilePath working)
     (set_fs (λ _, {[ audioFilePath working ]}) st0)).1
  = Normal (JObject ∅).
Proof.
  destruct (transcription_result_is_parsed_reply empty_object
              (audioFilePath working)
              (set_fs (λ _, {[ audioFilePath working ]}) st0)) as [_ H].
  by rewrite (H (js "{}") (JObject ∅)).
Defined.

(** C5 (the code at a failing input).  The function is documented to return
    an object with language, original transcript and translation.  For the
    reply [{}], which is valid JSON without any of the three keys, it
    returns the empty object as a success instead of treating the reply as
    malformed, and the route answers 200 with [sourceUrl] alone. *)
Lemma empty_object_is_success :
  (Structured.transcribeAndTranslateWithGemini empty_object
     (audioFilePath working)
     (set_fs (λ _, {[ audioFilePath working ]}) st0)).1
  = Normal (JObject ∅) ∧
  (∅ : gmap jsstring JValue) !! js "language_detected" = None ∧
  response (Structured.route empty_object reel st0).2
  = Some {| status := 200;
            body := JObject
              {[ js "sourceUrl" := JString (js "https://valid.example/reel") ]} |}.
Proof. repeat split; by vm_compute. Qed.

(** ** Several destination announcements *)

(** C6. When the event stream holds several destination announcements, the
    path that the download captures is the one of the last announcement:
    each announcement overwrites [downloadedFile], and when the process then
    closes the awaited download resolves with that last path in
    [downloadedFile]. *)
Theorem last_destination_wins
    env u st before eventType eventData part after :
  ytdlp_events env = before ++ (eventType, eventData) :: after →
  is_Some (captured before (downloadedFile st)) →
  announces_destination eventType eventData = true →
  after_destination eventData = Some part →
  Forall (λ ev, announces_destination ev.1 ev.2 = false) after →
  captured (ytdlp_events env) (downloadedFile st) = Some (trim part) ∧
  (emit_all (ytdlp_events env) st).2 = set_downloadedFile (trim part) st ∧
  (ytdlp_end env = Close → truthy (trim part) = true →
   ∃ st', await_download env u st = (Normal tt, st') ∧
          downloadedFile st' = trim part).
Proof.
  intros Hev Hb Ha Hp Hq.
  assert (Hc : ∀ st0 : State, captured (ytdlp_events env) (downloadedFile st0)
                              = Some (trim part)).
  { intros st0. rewrite Hev. apply captured_last; try done.
    by eapply captured_is_Some. }
  split; [done|]. split.
  - by rewrite (emit_all_captured _ _ _ (Hc st)).
  - intros Hclose Htruthy. unfold await_download, bind. simpl.
    erewrite emit_all_captured; [|by apply Hc].
    rewrite Hclose. simpl. rewrite Htruthy. simpl. by eexists.
Qed.

Lemma last_destination_wins_witness :
  downloadedFile (emit_all (ytdlp_events announcing_twice) st0).2 = raw_path ∧
  ∃ st', await_download announcing_twice (js "https://valid.example/reel") st0
         = (Normal tt, st') ∧
         downloadedFile st' = raw_path.
Proof.
  destruct (last_destination_wins announcing_twice
              (js "https://valid.example/reel") st0
              [ (js "download", js "Destination: /app/temp/1700000000123.webm");
                (js "youtube", js "Extracting URL") ]
              (js "download")
              (js "Destination: /app/temp/1700000000123.m4a ")
              (js "/app/temp/1700000000123.m4a ")
              [ (js "download", js "100% of 1.2MiB") ])
    as (_ & Hemit & Hawait).
  - reflexivity.
  - by eexists.
  - reflexivity.
  - reflexivity.
  - by repeat constructor.
  - split; [by rewrite Hemit|by apply Hawait].
Defined.

(** ** A download that produces no file *)

(** C7. When yt-dlp closes without having announced a destination, or the
    path it announced last is not on disk when it closes, the [try] block
    fails with the error [DownloadFailed], the response is 400 with the
    download message, and yt-dlp is the only collaborator invoked: neither
    ffmpeg nor the model is called. *)
Theorem download_failure_stops_pipeline env u st :
  truthy u = true →
  ytdlp_end env = Close →
  Forall (λ ev, announces_destination ev.1 ev.2 = false) (ytdlp_events env) ∨
  (∃ file, captured (ytdlp_events env) [] = Some file ∧
           file ∉ after_download env st) →
  (pipeline Structured.transcribeAndTranslateWithGemini Structured.success_body
     env u (set_downloadedFile [] st)).1
  = Throw (Error (js "DownloadFailed")) ∧
  response (Structured.route env {| url := Some u |} st).2
  = Some {| status := 400;
            body := JObject {[ js "error" := JString download_failed_message ]} |} ∧
  calls (Structured.route env {| url := Some u |} st).2
  = calls st ++ [ytdlp_call env u].
Proof.
  intros Hu Hclose Hbad.
  assert (∃ file, captured (ytdlp_events env) [] = Some file ∧
                  (truthy file = false ∨ file ∉ after_download env st))
    as (file & Hcap & Hfile).
  { destruct Hbad as [Hq|(file & Hcap & Hnot)].
    - exists []. split; [by apply captured_quiet|by left].
    - exists file. by split; [|right]. }
  destruct (download_step_fails env u (set_downloadedFile [] st) file)
    as (st1 & Hrun & Hcalls & Hresp & _); [done..|].
  assert (Hp : pipeline Structured.transcribeAndTranslateWithGemini
                 Structured.success_body env u (set_downloadedFile [] st)
               = (Throw (Error (js "DownloadFailed")), st1)).
  { unfold pipeline. unfold bind at 1. by rewrite Hrun. }
  split; [by rewrite Hp|].
  unfold Structured.route.
  destruct (route_response Structured.transcribeAndTranslateWithGemini
              Structured.success_body env u st Hu) as [-> ->].
  unfold try_catch. rewrite Hp. simpl. by rewrite Hcalls.
Qed.

Lemma download_failure_stops_pipeline_witness :
  response (Structured.route silent reel st0).2
  = Some {| status := 400;
            body := JObject {[ js "error" := JString download_failed_message ]} |} ∧
  calls (Structured.route vanished reel st0).2
  = [ytdlp_call vanished (js "https://valid.example/reel")].
Proof.
  split.
  - apply (download_failure_stops_pipeline silent
             (js "https://valid.example/reel") st0); [reflexivity..|].
    left. by repeat constructor.
  - apply (download_failure_stops_pipeline vanished
             (js "https://valid.example/reel") st0); [reflexivity..|].
    right. exists raw_path. split; [reflexivity|].
    by vm_compute.
Defined.

(** ** The fenced reply *)

(** C8. The reply that wraps the minified object in a json-tagged fence is
    cleaned to the object's text and parses to an object whose three fields
    are the embedded values, which the function returns.  A reply that does
    not begin with the json-tagged fence marker is left as it is: the same
    object inside an untagged fence is not cleaned and does not parse. *)
Theorem fenced_reply_parses :
  Structured.strip_fence fenced = three_fields ∧
  JSON_parse (Structured.strip_fence fenced)
  = Some (JObject
            (<[ js "language_detected" := JString (js "es") ]>
             (<[ js "original_transcript" := JString (js "hola") ]>
              {[ js "english_translation" := JString (js "hello") ]}))) ∧
  (Structured.transcribeAndTranslateWithGemini working (audioFilePath working)
     (set_fs (λ _, {[ audioFilePath working ]}) st0)).1
  = Normal (JObject
              (<[ js "language_detected" := JString (js "es") ]>
               (<[ js "original_transcript" := JString (js "hola") ]>
                {[ js "english_translation" := JString (js "hello") ]}))) ∧
  (∀ text, startsWith text (js "```json") = false →
           Structured.strip_fence text = text) ∧
  Structured.strip_fence fenced_untagged = fenced_untagged ∧
  JSON_parse (Structured.strip_fence fenced_untagged) = None.
Proof.
  repeat split; try by vm_compute.
  intros text H. unfold Structured.strip_fence. by rewrite H.
Qed.

Lemma fenced_reply_parses_witness :
  Structured.strip_fence (js "```JSON {}```") = js "```JSON {}```".
Proof.
  destruct fenced_reply_parses as (_ & _ & _ & Honly & _).
  by apply Honly.
Defined.

(** ** Job identifiers of different requests *)

(** The file names of a job are injective in the clock reading: two runs
    from the same temporary directory whose clock readings differ have
    different waveform paths and different download templates.  Apart from
    that, a run that returns has deleted nothing but the path it captured
    and its own waveform path. *)
Theorem distinct_clocks_distinct_files env1 env2 u st st' :
  tempDir env1 = tempDir env2 →
  now env1 ≠ now env2 →
  audioFilePath env1 ≠ audioFilePath env2 ∧
  outputTemplate env1 ≠ outputTemplate env2 ∧
  (truthy u = true →
   Structured.route env1 {| url := Some u |} st = (Normal tt, st') →
   ∀ p, p ∈ fs st → p ≠ downloadedFile st' → p ≠ audioFilePath env1 →
        p ∈ fs st').
Proof.
  intros Hdir Hnow. split; [|split].
  - unfold audioFilePath. rewrite Hdir. by intros H%job_file_inj.
  - unfold outputTemplate. rewrite Hdir. by intros H%job_file_inj.
  - intros Hu Hrun p Hin Hraw Hwav.
    unfold Structured.route in Hrun. rewrite route_started in Hrun by done.
    unfold try_finally in Hrun.
    pose proof (keeps_attempt env1 u (set_downloadedFile [] st)) as Hkeep.
    destruct (try_catch _ _ _) as [[[]|e|e] s1]; [| |done];
      pose proof (cleanup_frame env1 s1) as (_ & _ & Hd & _);
      destruct (cleanup env1 s1) as [[[]|e'|e'] s2] eqn:Hc; try done;
      injection Hrun as <-;
      destruct (cleanup_returns _ _ _ Hc) as (_ & _ & Hframe);
      simpl in *; apply Hframe; try done; try congruence; set_solver.
Qed.

Lemma distinct_clocks_distinct_files_witness :
  audioFilePath working
  ≠ audioFilePath (with_download
                     {| tempDir := js "/app/temp"; now := 1700000000124;
                        ytdlp_events := []; ytdlp_end := Close;
                        ytdlp_files := []; ffmpeg_error := None;
                        ffmpeg_leaves_output := false;
                        inference := Reply []; unlink_error := λ _, None |}
                     [] Close []) ∧
  js "/app/temp/keep.txt" ∈ fs (Structured.route working reel st0).2.
Proof.
  destruct (distinct_clocks_distinct_files working
              (with_download
                 {| tempDir := js "/app/temp"; now := 1700000000124;
                    ytdlp_events := []; ytdlp_end := Close;
                    ytdlp_files := []; ffmpeg_error := None;
                    ffmpeg_leaves_output := false;
                    inference := Reply []; unlink_error := λ _, None |}
                 [] Close [])
              (js "https://valid.example/reel") st0
              (Structured.route working reel st0).2)
    as (Hwav & _ & Hframe); [reflexivity|by vm_compute|].
  split; [exact Hwav|].
  apply Hframe; vm_compute; first [reflexivity|discriminate].
Defined.

(** C9 (the code at a failing input).  The identifier named [uniqueId] is
    the clock reading, which is not unique: two requests for different URLs
    that read the same millisecond get the same identifier, hence the same
    waveform path and the same download template, and they interfere: the
    second one, failing at the download, deletes the waveform file that the
    first has written. *)
Lemma same_millisecond_same_files :
  url reel ≠ Some (js "https://valid.example/other") ∧
  now working = now silent ∧
  audioFilePath working = audioFilePath silent ∧
  outputTemplate working = outputTemplate silent ∧
  audioFilePath working
  ∈ fs (set_fs (λ _, {[ audioFilePath working ]}) st0) ∧
  audioFilePath working
  ∉ fs (Structured.route silent
          {| url := Some (js "https://valid.example/other") |}
          (set_fs (λ _, {[ audioFilePath working ]}) st0)).2.
Proof. repeat split; by vm_compute. Qed.

(** ** The body of the 200 response *)

(** The response of a run whose [try] block succeeds is 200.  In the
    structured revision its body is [sourceUrl] together
    with the own properties of the value the cleaned reply parses to, copied
    unchanged and taking precedence over [sourceUrl]; when that value is an
    object with exactly the three keys, the body has exactly [sourceUrl]
    (the URL of the request) and the three fields, each with the value the
    reply gave it.  In the text-only revision the body is [sourceUrl] and
    [transcript]. *)
Theorem success_response env u st :
  truthy u = true →
  ((pipeline Structured.transcribeAndTranslateWithGemini
      Structured.success_body env u (set_downloadedFile [] st)).1
   = Normal tt →
   ∃ text result,
     inference env = Reply text ∧
     JSON_parse (Structured.strip_fence text) = Some result ∧
     response (Structured.route env {| url := Some u |} st).2
     = Some {| status := 200;
               body := JObject
                 (spread result ∪ {[ js "sourceUrl" := JString u ]}) |} ∧
     ∀ props,
       result = JObject props →
       dom props = {[ js "language_detected"; js "original_transcript";
                      js "english_translation" ]} →
       dom (spread result ∪ {[ js "sourceUrl" := JString u ]})
       = {[ js "sourceUrl"; js "language_detected";
            js "original_transcript"; js "english_translation" ]} ∧
       (spread result ∪ {[ js "sourceUrl" := JString u ]}) !! js "sourceUrl"
       = Some (JString u) ∧
       ∀ k, k ∈ dom props →
            (spread result ∪ {[ js "sourceUrl" := JString u ]}) !! k
            = props !! k) ∧
  ((pipeline Plain.transcribeAndTranslateWithGemini
      Plain.success_body env u (set_downloadedFile [] st)).1
   = Normal tt →
   ∃ text,
     inference env = Reply text ∧
     response (Plain.route env {| url := Some u |} st).2
     = Some {| status := 200;
               body := JObject
                 (<[ js "sourceUrl" := JString u ]>
                  {[ js "transcript" := JString (trim text) ]}) |}).
Proof.
  intros Hu. split.
  - intros Hok.
    destruct (pipeline _ _ _ _ _) as [c s1] eqn:Hp. simpl in Hok. subst c.
    destruct (pipeline_success_inv _ _ _ _ _ _ Hp)
      as (result & s2 & s3 & Ht & Hresp).
    destruct (transcription_success_inv _ _ _ _ _ Ht)
      as (text & _ & Hreply & Hparse).
    exists text, result. split; [done|]. split; [done|]. split.
    + unfold Structured.route.
      destruct (route_response Structured.transcribeAndTranslateWithGemini
                  Structured.success_body env u st Hu) as [-> _].
      unfold try_catch. by rewrite Hp.
    + intros props -> Hdom. simpl.
      assert (Hfresh : props !! js "sourceUrl" = None).
      { apply not_elem_of_dom. rewrite Hdom. by vm_compute. }
      split; [|split].
      * rewrite dom_union_L, dom_singleton_L, Hdom. set_solver.
      * rewrite lookup_union_r by done. apply lookup_singleton_eq.
      * intros k Hk. apply lookup_union_l'. by apply elem_of_dom.
  - intros Hok.
    destruct (pipeline _ _ _ _ _) as [c s1] eqn:Hp. simpl in Hok. subst c.
    destruct (pipeline_success_inv _ _ _ _ _ _ Hp)
      as (result & s2 & s3 & Ht & Hresp).
    destruct (plain_success_inv _ _ _ _ _ Ht) as (text & Hreply & ->).
    exists text. split; [done|].
    unfold Plain.route.
    destruct (route_response Plain.transcribeAndTranslateWithGemini
                Plain.success_body env u st Hu) as [-> _].
    unfold try_catch. by rewrite Hp.
Qed.

Lemma success_response_witness :
  ∃ text result,
    inference working = Reply text ∧
    JSON_parse (Structured.strip_fence text) = Some result ∧
    response (Structured.route working reel st0).2
    = Some {| status := 200;
              body := JObject
                (spread result
                 ∪ {[ js "sourceUrl"
                      := JString (js "https://valid.example/reel") ]}) |}.
Proof.
  destruct (success_response working (js "https://valid.example/reel") st0)
    as [Hs _]; [reflexivity|].
  destruct Hs as (text & result & Hreply & Hparse & Hresp & _);
    [vm_compute; reflexivity|].
  exists text, result. split; [exact Hreply|]. split; [exact Hparse|].
  exact Hresp.
Defined.

(** C10 (the code at a failing input).  For a reply that is a JSON object
    with the single key [sourceUrl], the run succeeds with status 200, yet
    the body holds none of the three fields of the structured result, and
    its [sourceUrl] is the model's value, not the URL of the request: the
    result is spread into the body unchecked. *)
Lemma success_without_fields :
  (pipeline Structured.transcribeAndTranslateWithGemini
     Structured.success_body shadowing (js "https://valid.example/reel")
     (set_downloadedFile [] st0)).1 = Normal tt ∧
  response (Structured.route shadowing reel st0).2
  = Some {| status := 200;
            body := JObject {[ js "sourceUrl" := JString (js "x") ]} |} ∧
  ({[ js "sourceUrl" := JString (js "x") ]} : gmap jsstring JValue)
    !! js "language_detected" = None.
Proof. repeat split; by vm_compute. Qed.

(** * Further supporting lemmas *)

(** ** Prefixes, [split] and [trim] *)

Lemma is_prefix_app p s : is_prefix p (p ++ s) = true.
Proof. induction p as [|a p IH]; [by destruct s|]. simpl. by rewrite N.eqb_refl. Qed.

Lemma is_prefix_inv p s : is_prefix p s = true → ∃ r, s = p ++ r.
Proof.
  revert s. induction p as [|a p IH]; intros s H; [by exists s|].
  destruct s as [|b s]; [done|]. simpl in H.
  apply andb_true_iff in H as [Hab%N.eqb_eq Hp]. subst b.
  destruct (IH s Hp) as [r ->]. by exists r.
Qed.

Lemma includes_of_prefix s sub : is_prefix sub s = true → includes s sub = true.
Proof. intros H. destruct s; simpl; by rewrite H. Qed.

Lemma includes_prefix s sub : includes s sub = false → is_prefix sub s = false.
Proof. destruct s; simpl; by intros [? ?]%orb_false_iff. Qed.

Lemma split_go_plain sep s cur :
  includes s sep = false → split_go sep s cur 0 = [rev cur ++ s].
Proof.
  revert cur. induction s as [|c s IH]; intros cur H.
  - simpl. by rewrite app_nil_r.
  - pose proof (includes_prefix _ _ H) as Hp.
    simpl in H. apply orb_false_iff in H as [_ H].
    change (split_go sep (c :: s) cur 0)
      with (if is_prefix sep (c :: s)
            then rev cur :: split_go sep s [] (length sep - 1)
            else split_go sep s (c :: cur) 0).
    rewrite Hp, IH by done. simpl. by rewrite <- app_assoc.
Qed.

Lemma split_go_skip sep pre s cur :
  split_go sep (pre ++ s) cur (length pre) = split_go sep s cur 0.
Proof. induction pre as [|c pre IH]; [done|]. simpl. apply IH. Qed.

(** A text that begins with the separator and holds it nowhere else splits
    into the empty string and the rest. *)
Lemma split_leading sep c rest :
  includes rest (c :: sep) = false →
  split (c :: sep ++ rest) (c :: sep) = [[]; rest].
Proof.
  intros H. unfold split.
  change (split_go (c :: sep) (c :: sep ++ rest) [] 0)
    with (if is_prefix (c :: sep) (c :: sep ++ rest)
          then rev [] :: split_go (c :: sep) (sep ++ rest) []
                           (length (c :: sep) - 1)
          else split_go (c :: sep) (sep ++ rest) [c] 0).
  pose proof (is_prefix_app (c :: sep) rest) as Hp.
  change ((c :: sep) ++ rest) with (c :: sep ++ rest) in Hp. rewrite Hp.
  replace (length (c :: sep) - 1) with (length sep) by (simpl; lia).
  by rewrite split_go_skip, split_go_plain.
Qed.

Lemma trimStart_nonspace l c r :
  is_js_space c = false → trimStart (l ++ c :: r) = trimStart l ++ c :: r.
Proof.
  intros Hc. induction l as [|x l IH]; simpl; [by rewrite Hc|].
  by destruct (is_js_space x).
Qed.

Lemma trimStart_head s c :
  head (trimStart s) = Some c → is_js_space c = false.
Proof.
  induction s as [|x s IH]; simpl; [done|].
  destruct (is_js_space x) eqn:Hx; [done|]. simpl. by intros [= <-].
Qed.

Lemma trimEnd_cons c t :
  is_js_space c = false → trimEnd (c :: t) = c :: trimEnd t.
Proof.
  intros Hc. unfold trimEnd. simpl rev.
  rewrite (trimStart_nonspace (rev t) c []) by done.
  by rewrite rev_app_distr.
Qed.

Lemma trim_head s c : head (trim s) = Some c → is_js_space c = false.
Proof.
  unfold trim. destruct (trimStart s) as [|x t] eqn:Hs; [done|].
  assert (Hx : is_js_space x = false)
    by (apply (trimStart_head s); by rewrite Hs).
  rewrite trimEnd_cons by done. simpl. by intros [= <-].
Qed.

Lemma last_rev {A} (l : list A) : last (rev l) = head l.
Proof. destruct l as [|a l]; [done|]. simpl. by rewrite last_snoc. Qed.

Lemma trim_last s c : last (trim s) = Some c → is_js_space c = false.
Proof.
  unfold trim, trimEnd. rewrite last_rev. apply trimStart_head.
Qed.

(** A string without surrounding white space is its own trimmed form. *)
Lemma trim_clean s :
  (∀ c, head s = Some c → is_js_space c = false) →
  (∀ c, last s = Some c → is_js_space c = false) →
  trim s = s.
Proof.
  intros Hh Hl. unfold trim.
  assert (Hs : trimStart s = s).
  { destruct s as [|c t]; [done|]. simpl. by rewrite (Hh c). }
  rewrite Hs. unfold trimEnd.
  assert (Hr : trimStart (rev s) = rev s).
  { destruct (rev s) as [|c t] eqn:Hrev; [done|]. simpl.
    rewrite (Hl c); [done|].
    by rewrite <- (rev_involutive s), Hrev, last_rev. }
  by rewrite Hr, rev_involutive.
Qed.

(** ** Footprints *)

Lemma confined_same {A} (m : M A) X :
  (∀ st, fs (m st).2 = fs st ∧ downloadedFile (m st).2 = downloadedFile st) →
  confined X m.
Proof. intros H st. destruct (H st) as [-> ->]. set_solver. Qed.

Lemma confined_bind {A B} (m : M A) (k : A → M B) X :
  confined X m → (∀ a, confined X (k a)) → confined X (bind m k).
Proof.
  unfold confined, bind. intros Hm Hk st. specialize (Hm st).
  destruct (m st) as [[a|e|e] st']; simpl in *; [|done..].
  specialize (Hk a st'). destruct Hm as (? & ? & Hd), Hk as (? & ? & Hd').
  split; [set_solver|]. split; [set_solver|congruence].
Qed.

Lemma confined_try_catch {A} (body : M A) handler X :
  confined X body → (∀ e, confined X (handler e)) →
  confined X (try_catch body handler).
Proof.
  unfold confined, try_catch. intros Hm Hk st. specialize (Hm st).
  destruct (body st) as [[a|e|e] st']; simpl in *; [done| |done].
  specialize (Hk e st'). destruct Hm as (? & ? & Hd), Hk as (? & ? & Hd').
  split; [set_solver|]. split; [set_solver|congruence].
Qed.

Lemma confined_if {A} (b : bool) (m1 m2 : M A) X :
  confined X m1 → confined X m2 → confined X (if b then m1 else m2).
Proof. by destruct b. Qed.

Lemma confined_writes paths X :
  list_to_set paths ⊆ X → confined X (writes paths).
Proof. intros H st. simpl. set_solver. Qed.

Lemma confined_weaken {A} (m : M A) X Y : X ⊆ Y → confined X m → confined Y m.
Proof. intros H Hm st. destruct (Hm st) as (? & ? & ?). set_solver. Qed.

Ltac confine :=
  repeat lazymatch goal with
    | |- confined _ (bind _ _) => apply confined_bind; [|intros ?]
    | |- confined _ (try_catch _ _) => apply confined_try_catch; [|intros ?]
    | |- confined _ (if _ then _ else _) => apply confined_if
    | |- confined _ (console_log _) => by apply confined_same
    | |- confined _ (console_error _ _) => by apply confined_same
    | |- confined _ (invoke _) => by apply confined_same
    | |- confined _ (respond _ _) => by apply confined_same
    | |- confined _ (existsSync _) => by apply confined_same
    | |- confined _ (gets _) => by apply confined_same
    | |- confined _ (ret _) => by apply confined_same
    | |- confined _ (throw _) => by apply confined_same
    end.

Lemma confined_convert_step env :
  confined {[ audioFilePath env ]} (convert_step env).
Proof.
  unfold convert_step. confine.
  destruct (ffmpeg_error env); confine;
    try (apply confined_writes; set_solver).
Qed.

Lemma confined_on_error e X : confined X (on_error e).
Proof. unfold on_error. confine. Qed.

Lemma confined_structured env p X :
  confined X (Structured.transcribeAndTranslateWithGemini env p).
Proof.
  unfold Structured.transcribeAndTranslateWithGemini, Structured.parse_reply,
    readFileSync, generateContent.
  confine.
  - destruct (inference env); confine.
  - destruct (JSON_parse _); confine.
Qed.

Lemma confined_plain env p X :
  confined X (Plain.transcribeAndTranslateWithGemini env p).
Proof.
  unfold Plain.transcribeAndTranslateWithGemini, readFileSync,
    generateContent.
  confine. destruct (inference env); confine.
Qed.

Lemma silent_on_error e : silent_calls (on_error e).
Proof. unfold on_error. intros st. by destruct (eqb _ _). Qed.

(** Whatever the download does, it leaves the captured path in
    [downloadedFile] and the files of yt-dlp on disk. *)
Lemma download_step_footprint env u st file :
  captured (ytdlp_events env) (downloadedFile st) = Some file →
  downloadedFile (download_step env u st).2 = file ∧
  fs (download_step env u st).2 = after_download env st ∧
  calls (download_step env u st).2 = calls st ++ [ytdlp_call env u] ∧
  response (download_step env u st).2 = response st.
Proof.
  intros Hcap. unfold download_step, await_download, bind. simpl.
  erewrite emit_all_captured by (simpl; exact Hcap).
  destruct (ytdlp_end env); simpl; [|done].
  destruct (truthy file) eqn:Ht; simpl; rewrite ?Ht; simpl; [|done].
  by case_bool_decide.
Qed.

Lemma convert_step_ends env st :
  ffmpeg_error env = None →
  convert_step env st
  = (Normal tt,
     add_log (ConsoleLog [LText (js "[2/3] Conversion successful.")])
       (set_fs (λ files, list_to_set [audioFilePath env] ∪ files)
          (add_call (CallFfmpeg (downloadedFile st) (audioFilePath env))
             (add_log
                (ConsoleLog [LText (js "[2/3] Converting to WAV format...")])
                st)))).
Proof. intros H. unfold convert_step, bind. simpl. by rewrite H. Qed.

Lemma convert_step_errors env st err :
  ffmpeg_error env = Some err →
  convert_step env st
  = (Throw err,
     add_log (ConsoleError [LText (js "[2/3] FFmpeg error:"); LError err])
       (set_fs (λ files,
                  if ffmpeg_leaves_output env
                  then list_to_set [audioFilePath env] ∪ files else files)
          (add_call (CallFfmpeg (downloadedFile st) (audioFilePath env))
             (add_log
                (ConsoleLog [LText (js "[2/3] Converting to WAV format...")])
                st)))).
Proof.
  intros H. unfold convert_step, bind. simpl. rewrite H.
  by destruct (ffmpeg_leaves_output env).
Qed.

(** The completion of the download step, read off the environment. *)
Lemma download_step_outcome env u st file :
  captured (ytdlp_events env) (downloadedFile st) = Some file →
  (download_step env u st).1
  = match ytdlp_end env with
    | Close =>
        if truthy file && bool_decide (file ∈ after_download env st)
        then Normal tt else Throw (Error (js "DownloadFailed"))
    | ProcessError err => Throw err
    end.
Proof.
  intros Hcap. unfold download_step, await_download, bind. simpl.
  erewrite emit_all_captured by (simpl; exact Hcap).
  destruct (ytdlp_end env); simpl; [|done].
  destruct (truthy file) eqn:Ht; simpl; rewrite ?Ht; simpl; [|done].
  unfold after_download. by case_bool_decide.
Qed.

(** ** The orchestration, for any transcription function *)

Section Orchestration.

Context {R : Type}.
Variable transcribe : Env → jsstring → M R.
Variable success_body : jsstring → R → JValue.
Hypothesis transcribe_confined : ∀ env p, confined ∅ (transcribe env p).
Hypothesis transcribe_calls : ∀ env p st,
  p ∈ fs st →
  calls (transcribe env p st).2 = calls st ++ [CallGenerateContent p].

Let route := transcribe_route transcribe success_body.
Let attempt env u := try_catch (pipeline transcribe success_body env u) on_error.

(** The stages after the download. *)
Let later env u : M unit :=
  run convert_step env then
  run console_log
        (js "[3/3] Starting transcription and translation for: "
         ++ audioFilePath env) then
  let! result := transcribe env (audioFilePath env) in
  run console_log (js "[3/3] Process complete.") then
  respond 200 (success_body u result).

Lemma confined_later env u : confined {[ audioFilePath env ]} (later env u).
Proof.
  unfold later. confine.
  - apply confined_convert_step.
  - apply (confined_weaken _ ∅); [set_solver|apply transcribe_confined].
Qed.

Lemma attempt_footprint env u st file :
  captured (ytdlp_events env) [] = Some file →
  downloadedFile (attempt env u (set_downloadedFile [] st)).2 = file ∧
  after_download env st ⊆ fs (attempt env u (set_downloadedFile [] st)).2 ∧
  fs (attempt env u (set_downloadedFile [] st)).2
  ⊆ after_download env st ∪ {[ audioFilePath env ]}.
Proof.
  intros Hcap.
  destruct (download_step_footprint env u (set_downloadedFile [] st) file Hcap)
    as (Hfile & Hfs & _).
  change (after_download env (set_downloadedFile [] st))
    with (after_download env st) in Hfs.
  remember (attempt env u (set_downloadedFile [] st)) as r eqn:Hr.
  unfold attempt, try_catch, pipeline in Hr. unfold bind at 1 in Hr.
  destruct (download_step env u _) as [[[]|e|e] sd];
    cbn [fst snd] in Hfile, Hfs.
  - change (bind (convert_step env) _) with (later env u) in Hr.
    destruct (confined_later env u sd) as (Hsub & Hsup & Hd).
    rewrite Hfs in Hsub, Hsup.
    destruct (later env u sd) as [[[]|e|e] s1]; cbn [fst snd] in *.
    + subst r. cbn [fst snd]. by rewrite Hd, Hfile.
    + destruct (confined_on_error e ∅ s1) as (Hsub' & Hsup' & Hd').
      subst r. rewrite Hd', Hd, Hfile. split; [done|].
      rewrite union_empty_r_L in Hsup'. split; by etrans.
    + subst r. cbn [fst snd]. by rewrite Hd, Hfile.
  - destruct (confined_on_error e ∅ sd) as (Hsub' & Hsup' & Hd').
    subst r. rewrite Hd', Hfile. split; [done|].
    rewrite union_empty_r_L, Hfs in Hsup'. rewrite Hfs in Hsub'.
    split; [done|]. etrans; [done|]. apply union_subseteq_l.
  - subst r. cbn [fst snd]. rewrite Hfile, Hfs. split; [done|].
    split; [done|]. apply union_subseteq_l.
Qed.

(** The collaborators a run invokes, in order. *)
Lemma attempt_calls env u st file :
  captured (ytdlp_events env) [] = Some file →
  calls (attempt env u (set_downloadedFile [] st)).2
  = calls st ++ ytdlp_call env u ::
    match ytdlp_end env with
    | Close =>
        if truthy file && bool_decide (file ∈ after_download env st) then
          CallFfmpeg file (audioFilePath env) ::
          match ffmpeg_error env with
          | None => [CallGenerateContent (audioFilePath env)]
          | Some _ => []
          end
        else []
    | ProcessError _ => []
    end.
Proof.
  intros Hcap.
  destruct (download_step_footprint env u (set_downloadedFile [] st) file Hcap)
    as (Hfile & Hfs & Hcalls & _).
  pose proof (download_step_outcome env u (set_downloadedFile [] st) file Hcap)
    as Hout.
  change (after_download env (set_downloadedFile [] st))
    with (after_download env st) in *.
  change (calls (set_downloadedFile [] st)) with (calls st) in Hcalls.
  unfold attempt, try_catch, pipeline. unfold bind at 1.
  destruct (download_step env u _) as [c sd];
    cbn [fst snd] in Hfile, Hfs, Hcalls, Hout.
  assert (Herr : ∀ e, calls (on_error e sd).2 = calls st ++ [ytdlp_call env u])
    by (intros e; by rewrite silent_on_error).
  destruct (ytdlp_end env) as [|err]; [|by subst c].
  destruct (truthy file && _); subst c; [|done].
  unfold bind at 1.
  destruct (ffmpeg_error env) as [err|] eqn:Hff.
  - rewrite (convert_step_errors env sd err Hff).
    rewrite silent_on_error. cbn [snd calls add_log set_fs add_call].
    rewrite Hcalls, Hfile. by rewrite <- app_assoc.
  - rewrite (convert_step_ends env sd Hff).
    unfold bind at 1. unfold console_log at 1, modify at 1.
    unfold bind at 1.
    match goal with
    | |- context [transcribe env (audioFilePath env) ?s] => set (s3 := s)
    end.
    assert (Hin : audioFilePath env ∈ fs s3)
      by (subst s3; cbn [fs add_log set_fs add_call]; set_solver).
    assert (Hc3 : calls s3
                  = calls st ++ [ytdlp_call env u;
                                 CallFfmpeg file (audioFilePath env)]).
    { subst s3. cbn [calls add_log set_fs add_call].
      by rewrite Hcalls, Hfile, <- app_assoc. }
    pose proof (transcribe_calls env _ s3 Hin) as Ht.
    clearbody s3.
    destruct (transcribe env (audioFilePath env) s3) as [[r|e|e] s4];
      cbn [snd] in Ht.
    + unfold bind, console_log, respond, modify.
      cbn [fst snd calls add_log set_response].
      by rewrite Ht, Hc3, <- app_assoc.
    + by rewrite silent_on_error, Ht, Hc3, <- app_assoc.
    + cbn [snd]. by rewrite Ht, Hc3, <- app_assoc.
Qed.

End Orchestration.

Lemma structured_calls env p st :
  p ∈ fs st →
  calls (Structured.transcribeAndTranslateWithGemini env p st).2
  = calls st ++ [CallGenerateContent p].
Proof.
  intros Hin.
  unfold Structured.transcribeAndTranslateWithGemini, Structured.parse_reply,
    try_catch, readFileSync, generateContent, bind, existsSync, gets, invoke,
    modify. cbn [fst snd].
  rewrite bool_decide_eq_true_2 by done. cbn [fst snd ret].
  destruct (inference env) as [text|err]; [|done].
  cbn [fst snd ret]. by destruct (JSON_parse _).
Qed.

Lemma plain_calls env p st :
  p ∈ fs st →
  calls (Plain.transcribeAndTranslateWithGemini env p st).2
  = calls st ++ [CallGenerateContent p].
Proof.
  intros Hin.
  unfold Plain.transcribeAndTranslateWithGemini, try_catch, readFileSync,
    generateContent, bind, existsSync, gets, invoke, modify. cbn [fst snd].
  rewrite bool_decide_eq_true_2 by done. cbn [fst snd ret].
  by destruct (inference env) as [text|err].
Qed.

(** A failed call to the model, in either revision: the error is logged and
    replaced. *)
Lemma structured_inference_error env p st err :
  p ∈ fs st →
  inference env = InferenceError err →
  Structured.transcribeAndTranslateWithGemini env p st
  = (Throw gemini_failure,
     add_log
       (ConsoleError [LText (js "Error during Gemini processing:"); LError err])
       (add_call (CallGenerateContent p) st)).
Proof.
  intros Hin Herr.
  unfold Structured.transcribeAndTranslateWithGemini, try_catch, readFileSync,
    generateContent, bind, existsSync, gets, invoke, modify. cbn [fst snd].
  rewrite bool_decide_eq_true_2 by done. cbn [fst snd ret]. by rewrite Herr.
Qed.

Lemma plain_inference_error env p st err :
  p ∈ fs st →
  inference env = InferenceError err →
  Plain.transcribeAndTranslateWithGemini env p st
  = (Throw gemini_failure,
     add_log
       (ConsoleError [LText (js "Error during Gemini processing:"); LError err])
       (add_call (CallGenerateContent p) st)).
Proof.
  intros Hin Herr.
  unfold Plain.transcribeAndTranslateWithGemini, try_catch, readFileSync,
    generateContent, bind, existsSync, gets, invoke, modify. cbn [fst snd].
  rewrite bool_decide_eq_true_2 by done. cbn [fst snd ret]. by rewrite Herr.
Qed.

Lemma plain_reply env p st text :
  p ∈ fs st →
  inference env = Reply text →
  Plain.transcribeAndTranslateWithGemini env p st
  = (Normal (trim text), add_call (CallGenerateContent p) st).
Proof.
  intros Hin Hreply.
  unfold Plain.transcribeAndTranslateWithGemini, try_catch, readFileSync,
    generateContent, bind, existsSync, gets, invoke, modify. cbn [fst snd].
  rewrite bool_decide_eq_true_2 by done. cbn [fst snd ret]. by rewrite Hreply.
Qed.

Lemma plain_missing_file env p st :
  p ∉ fs st →
  (Plain.transcribeAndTranslateWithGemini env p st).1 = Throw gemini_failure ∧
  calls (Plain.transcribeAndTranslateWithGemini env p st).2 = calls st.
Proof.
  intros Hin.
  unfold Plain.transcribeAndTranslateWithGemini, try_catch, readFileSync,
    generateContent, bind, existsSync, gets, invoke, modify. cbn [fst snd].
  by rewrite bool_decide_eq_false_2.
Qed.

(** ** The [finally] block, exactly *)

Lemma cleanup_exact env st st' :
  cleanup env st = (Normal tt, st') →
  fs st'
  = (if truthy (downloadedFile st) then fs st ∖ {[ downloadedFile st ]}
     else fs st) ∖ {[ audioFilePath env ]} ∧
  console st'
  = console st ++ [ConsoleLog [LText (js "Temporary files cleaned up.")]].
Proof.
  unfold_cleanup.
  destruct (truthy (downloadedFile st)) eqn:Ht; cbn [andb].
  - destruct (bool_decide (downloadedFile st ∈ fs st)) eqn:Hraw.
    + destruct (unlink_error env (downloadedFile st)); [done|]. cbn [fst snd].
      destruct (bool_decide (audioFilePath env ∈ _)) eqn:Hwav.
      * destruct (unlink_error env (audioFilePath env)); [done|].
        intros [= <-]. by cbn.
      * apply bool_decide_eq_false_1 in Hwav. intros [= <-]. cbn.
        split; [|done]. set_solver.
    + apply bool_decide_eq_false_1 in Hraw.
      destruct (bool_decide (audioFilePath env ∈ _)) eqn:Hwav.
      * destruct (unlink_error env (audioFilePath env)); [done|].
        intros [= <-]. cbn. split; [|done]. set_solver.
      * apply bool_decide_eq_false_1 in Hwav. intros [= <-]. cbn.
        split; [|done]. set_solver.
  - destruct (bool_decide (audioFilePath env ∈ _)) eqn:Hwav.
    + destruct (unlink_error env (audioFilePath env)); [done|].
      intros [= <-]. by cbn.
    + apply bool_decide_eq_false_1 in Hwav. intros [= <-]. cbn.
      split; [|done]. set_solver.
Qed.

(** ** The console only grows *)

Lemma on_error_logs e st x :
  x ∈ console st → x ∈ console (on_error e st).2.
Proof.
  intros Hx. unfold on_error. destruct (eqb _ _); [done|].
  cbn. apply elem_of_app. by left.
Qed.

Lemma cleanup_logs env st x :
  x ∈ console st → x ∈ console (cleanup env st).2.
Proof.
  intros Hx. unfold_cleanup.
  destruct (truthy (downloadedFile st) && _);
    [destruct (unlink_error env (downloadedFile st)); [done|]|];
    cbn [fst snd];
    (destruct (bool_decide (audioFilePath env ∈ _));
     [destruct (unlink_error env (audioFilePath env)); [done|]|]);
    cbn; apply elem_of_app; by left.
Qed.

(** ** The run up to the call of the transcription function *)

Section Stages.

Context {R : Type}.
Variable transcribe : Env → jsstring → M R.
Variable success_body : jsstring → R → JValue.

Let route := transcribe_route transcribe success_body.
Let attempt env u := try_catch (pipeline transcribe success_body env u) on_error.

Lemma route_logs env u st x :
  truthy u = true →
  x ∈ console (attempt env u (set_downloadedFile [] st)).2 →
  x ∈ console (route env {| url := Some u |} st).2.
Proof.
  intros Hu Hx. unfold route. rewrite route_started by done.
  unfold try_finally. fold (attempt env u).
  destruct (attempt env u _) as [[[]|e|e] s1]; cbn [snd] in Hx; [| |done];
    pose proof (cleanup_logs env s1 x Hx);
    by destruct (cleanup env s1) as [[[]|e'|e'] s2].
Qed.

Lemma download_step_succeeds env u st file :
  ytdlp_end env = Close →
  captured (ytdlp_events env) (downloadedFile st) = Some file →
  truthy file = true →
  file ∈ after_download env st →
  ∃ sd,
    download_step env u st = (Normal tt, sd) ∧
    downloadedFile sd = file ∧
    fs sd = after_download env st ∧
    response sd = response st ∧
    console sd
    = console st
      ++ [ConsoleLog [LText (js "[1/3] Downloading audio from: " ++ u)];
          ConsoleLog
            [LText (js "[1/3] Download complete. File saved to: " ++ file)]].
Proof.
  intros Hclose Hcap Ht Hin. unfold download_step.
  destruct (await_download_close env u
              (add_log (ConsoleLog [LText (js "[1/3] Downloading audio from: " ++ u)]) st)
              file Hclose Hcap)
    as (st1 & Hrun & Hcalls & Hresp & Hcons & Hfile & Hfs).
  unfold bind at 1. unfold console_log at 1, modify at 1.
  unfold bind at 1. rewrite Hrun, Ht.
  unfold bind, existsSync, gets, console_log, modify. cbv beta iota.
  rewrite Hfile, Ht.
  rewrite bool_decide_eq_true_2 by (by rewrite Hfs).
  cbn [negb orb]. eexists. split; [done|].
  cbn [downloadedFile fs response console add_log].
  rewrite Hresp, Hfile, Hfs, Hcons. cbn [console add_log response].
  by rewrite <- app_assoc.
Qed.

(** The transcode fails after a download in order. *)
Lemma attempt_transcode_fails env u st file err :
  ytdlp_end env = Close →
  captured (ytdlp_events env) [] = Some file →
  truthy file = true →
  file ∈ after_download env st →
  ffmpeg_error env = Some err →
  ∃ s2,
    pipeline transcribe success_body env u (set_downloadedFile [] st)
    = (Throw err, s2) ∧
    ConsoleError [LText (js "[2/3] FFmpeg error:"); LError err] ∈ console s2.
Proof.
  intros Hclose Hcap Ht Hin Hff.
  destruct (download_step_succeeds env u (set_downloadedFile [] st) file)
    as (sd & Hd & _); [done..|].
  unfold pipeline. unfold bind at 1. rewrite Hd.
  unfold bind at 1. rewrite (convert_step_errors env sd err Hff).
  eexists. split; [done|]. cbn [console add_log].
  apply elem_of_app. right. by left.
Qed.

(** The download and the transcode are in order: the transcription
    function runs in a state where the waveform file exists. *)
Lemma pipeline_reaches_transcription env u st file :
  ytdlp_end env = Close →
  captured (ytdlp_events env) [] = Some file →
  truthy file = true →
  file ∈ after_download env st →
  ffmpeg_error env = None →
  ∃ s3,
    audioFilePath env ∈ fs s3 ∧
    pipeline transcribe success_body env u (set_downloadedFile [] st)
    = bind (transcribe env (audioFilePath env))
        (λ result,
           run console_log (js "[3/3] Process complete.") then
           respond 200 (success_body u result)) s3.
Proof.
  intros Hclose Hcap Ht Hin Hff.
  destruct (download_step_succeeds env u (set_downloadedFile [] st) file)
    as (sd & Hd & _); [done..|].
  unfold pipeline. unfold bind at 1. rewrite Hd.
  unfold bind at 1. rewrite (convert_step_ends env sd Hff).
  unfold bind at 1. unfold console_log at 1, modify at 1.
  eexists. split; [|done]. cbn [fs add_log set_fs add_call]. set_solver.
Qed.

End Stages.

(** * Further properties of the code *)

(** ** Requests without a URL *)

(** X1. A request whose body has no [url], or an empty one, is answered 400
    with the message that the URL is required, in both revisions; nothing
    else happens: no collaborator is invoked, nothing is logged and no file
    is touched. *)
Theorem request_without_url_rejected env req st :
  match url req with Some (_ :: _) => False | _ => True end →
  Structured.route env req st
  = (Normal tt,
     set_response
       {| status := 400;
          body := JObject
            {[ js "error" := JString (js "Instagram Reel URL is required.") ]} |}
       st) ∧
  Plain.route env req st
  = (Normal tt,
     set_response
       {| status := 400;
          body := JObject
            {[ js "error" := JString (js "Instagram Reel URL is required.") ]} |}
       st).
Proof.
  unfold Structured.route, Plain.route, transcribe_route.
  by destruct (url req) as [[|c u]|].
Qed.

Lemma request_without_url_rejected_witness :
  calls (Structured.route working {| url := Some [] |} st0).2 = [] ∧
  fs (Plain.route working {| url := None |} st0).2 = fs st0.
Proof.
  destruct (request_without_url_rejected working {| url := Some [] |} st0)
    as [-> _]; [exact I|].
  destruct (request_without_url_rejected working {| url := None |} st0)
    as [_ ->]; [exact I|].
  by split.
Defined.

(** ** A conversion that fails *)

(** X2. When the download is in order and ffmpeg reports an error, the
    error is logged with the label of step 2 and the response is 500 with
    the generic message and the message of the ffmpeg error as details, in
    both revisions.  The [catch] block looks at the message only: an ffmpeg
    error whose message is [DownloadFailed] is answered 400 with the
    download message. *)
Theorem transcode_failure_reported env u st file err :
  truthy u = true →
  ytdlp_end env = Close →
  captured (ytdlp_events env) [] = Some file →
  truthy file = true →
  file ∈ after_download env st →
  ffmpeg_error env = Some err →
  let answer :=
    if eqb (message err) (js "DownloadFailed") then
      {| status := 400;
         body := JObject {[ js "error" := JString download_failed_message ]} |}
    else
      {| status := 500;
         body := JObject
           (<[ js "error" := JString (js "An internal server error occurred.") ]>
            {[ js "details" := JString (message err) ]}) |} in
  (response (Structured.route env {| url := Some u |} st).2 = Some answer ∧
   ConsoleError [LText (js "[2/3] FFmpeg error:"); LError err]
   ∈ console (Structured.route env {| url := Some u |} st).2) ∧
  (response (Plain.route env {| url := Some u |} st).2 = Some answer ∧
   ConsoleError [LText (js "[2/3] FFmpeg error:"); LError err]
   ∈ console (Plain.route env {| url := Some u |} st).2).
Proof.
  intros Hu Hclose Hcap Ht Hin Hff answer.
  assert (Hgen : ∀ R (T : Env → jsstring → M R) S,
    response (transcribe_route T S env {| url := Some u |} st).2 = Some answer ∧
    ConsoleError [LText (js "[2/3] FFmpeg error:"); LError err]
    ∈ console (transcribe_route T S env {| url := Some u |} st).2).
  { intros R T S.
    destruct (attempt_transcode_fails T S env u st file err)
      as (s2 & Hp & Hlog); [done..|].
    split.
    - destruct (route_response T S env u st Hu) as [-> _].
      unfold try_catch. rewrite Hp. unfold on_error, answer.
      by destruct (eqb _ _).
    - apply route_logs; [done|]. unfold try_catch. rewrite Hp.
      by apply on_error_logs. }
  split; apply Hgen.
Qed.

Lemma transcode_failure_reported_witness :
  response (Structured.route unconvertible reel st0).2
  = Some {| status := 500;
            body := JObject
              (<[ js "error" := JString (js "An internal server error occurred.") ]>
               {[ js "details" := JString (message codec_error) ]}) |}.
Proof.
  destruct (transcode_failure_reported unconvertible
              (js "https://valid.example/reel") st0 raw_path codec_error)
    as [[Hresp _] _];
    [reflexivity|reflexivity|reflexivity|reflexivity|
     vm_compute; reflexivity|reflexivity|exact Hresp].
Defined.

(** ** A call to the model that fails *)

Lemma gemini_failure_is_internal :
  eqb (message gemini_failure) (js "DownloadFailed") = false.
Proof. by vm_compute. Qed.

(** X3. When the download and the conversion are in order and the call to
    the model throws, whatever the error, it is logged with the label of
    the Gemini step and replaced: the response is 500 with the generic
    message and the fixed Gemini message as details, in both revisions.  The
    message of the model's error does not reach the response. *)
Theorem inference_failure_reported env u st file err :
  truthy u = true →
  ytdlp_end env = Close →
  captured (ytdlp_events env) [] = Some file →
  truthy file = true →
  file ∈ after_download env st →
  ffmpeg_error env = None →
  inference env = InferenceError err →
  let answer :=
    {| status := 500;
       body := JObject
         (<[ js "error" := JString (js "An internal server error occurred.") ]>
          {[ js "details" := JString (message gemini_failure) ]}) |} in
  (response (Structured.route env {| url := Some u |} st).2 = Some answer ∧
   ConsoleError [LText (js "Error during Gemini processing:"); LError err]
   ∈ console (Structured.route env {| url := Some u |} st).2) ∧
  (response (Plain.route env {| url := Some u |} st).2 = Some answer ∧
   ConsoleError [LText (js "Error during Gemini processing:"); LError err]
   ∈ console (Plain.route env {| url := Some u |} st).2).
Proof.
  intros Hu Hclose Hcap Ht Hin Hff Herr answer. split.
  - destruct (pipeline_reaches_transcription
                Structured.transcribeAndTranslateWithGemini
                Structured.success_body env u st file)
      as (s3 & Hwav & Hp); [done..|].
    unfold bind in Hp.
    rewrite (structured_inference_error env _ s3 err Hwav Herr) in Hp.
    unfold Structured.route. split.
    + destruct (route_response Structured.transcribeAndTranslateWithGemini
                  Structured.success_body env u st Hu) as [-> _].
      unfold try_catch. rewrite Hp. unfold on_error.
      by rewrite gemini_failure_is_internal.
    + apply route_logs; [done|]. unfold try_catch. rewrite Hp.
      apply on_error_logs. cbn [console add_log].
      apply elem_of_app. right. by left.
  - destruct (pipeline_reaches_transcription
                Plain.transcribeAndTranslateWithGemini
                Plain.success_body env u st file)
      as (s3 & Hwav & Hp); [done..|].
    unfold bind in Hp.
    rewrite (plain_inference_error env _ s3 err Hwav Herr) in Hp.
    unfold Plain.route. split.
    + destruct (route_response Plain.transcribeAndTranslateWithGemini
                  Plain.success_body env u st Hu) as [-> _].
      unfold try_catch. rewrite Hp. unfold on_error.
      by rewrite gemini_failure_is_internal.
    + apply route_logs; [done|]. unfold try_catch. rewrite Hp.
      apply on_error_logs. cbn [console add_log].
      apply elem_of_app. right. by left.
Qed.

Lemma inference_failure_reported_witness :
  response (Plain.route unreachable reel st0).2
  = Some {| status := 500;
            body := JObject
              (<[ js "error" := JString (js "An internal server error occurred.") ]>
               {[ js "details" := JString (message gemini_failure) ]}) |}.
Proof.
  destruct (inference_failure_reported unreachable
              (js "https://valid.example/reel") st0 raw_path
              (Error (js "fetch failed")))
    as [_ [Hresp _]];
    [reflexivity|reflexivity|reflexivity|reflexivity|
     vm_compute; reflexivity|reflexivity|reflexivity|exact Hresp].
Defined.

(** ** The order of the stages *)

(** X4. The collaborators are invoked strictly in order and each only after
    the one before it succeeded.  yt-dlp is always invoked; ffmpeg is invoked
    on the captured file exactly when yt-dlp closed with a captured path
    that is on disk; the model is invoked exactly when, in addition, ffmpeg
    ended without an error.  This holds in both revisions, whatever the
    outcome of the cleanup. *)
Theorem stages_run_in_order env u st file :
  truthy u = true →
  captured (ytdlp_events env) [] = Some file →
  let invoked :=
    ytdlp_call env u ::
    match ytdlp_end env with
    | Close =>
        if truthy file && bool_decide (file ∈ after_download env st) then
          CallFfmpeg file (audioFilePath env) ::
          match ffmpeg_error env with
          | None => [CallGenerateContent (audioFilePath env)]
          | Some _ => []
          end
        else []
    | ProcessError _ => []
    end in
  calls (Structured.route env {| url := Some u |} st).2 = calls st ++ invoked ∧
  calls (Plain.route env {| url := Some u |} st).2 = calls st ++ invoked.
Proof.
  intros Hu Hcap invoked. split.
  - unfold Structured.route.
    destruct (route_response Structured.transcribeAndTranslateWithGemini
                Structured.success_body env u st Hu) as [_ ->].
    exact (attempt_calls Structured.transcribeAndTranslateWithGemini
             Structured.success_body (λ e p, confined_structured e p ∅)
             structured_calls env u st file Hcap).
  - unfold Plain.route.
    destruct (route_response Plain.transcribeAndTranslateWithGemini
                Plain.success_body env u st Hu) as [_ ->].
    exact (attempt_calls Plain.transcribeAndTranslateWithGemini
             Plain.success_body (λ e p, confined_plain e p ∅)
             plain_calls env u st file Hcap).
Qed.

Lemma stages_run_in_order_witness :
  calls (Structured.route working reel st0).2
  = [ytdlp_call working (js "https://valid.example/reel");
     CallFfmpeg raw_path (audioFilePath working);
     CallGenerateContent (audioFilePath working)] ∧
  calls (Plain.route unconvertible reel st0).2
  = [ytdlp_call working (js "https://valid.example/reel");
     CallFfmpeg raw_path (audioFilePath working)].
Proof.
  unfold reel. split.
  - destruct (stages_run_in_order working (js "https://valid.example/reel")
                st0 raw_path) as [-> _]; [reflexivity|reflexivity|].
    vm_compute. reflexivity.
  - destruct (stages_run_in_order unconvertible
                (js "https://valid.example/reel") st0 raw_path) as [_ ->];
      [reflexivity|reflexivity|].
    vm_compute. reflexivity.
Defined.

(** ** The response of a run whose tools settle *)

(** X5. This is about the runs in which yt-dlp, ffmpeg and the call to the
    model each settle, which are the only runs an environment describes: the
    source awaits the three without a timeout, and a tool that never settles
    leaves the request without a response.  In such a run, unless the
    listener throws, the request has been answered once the [try] and
    [catch] blocks are done, also when the cleanup throws afterwards; the
    status is 200, 400 or 500, and it is 200 exactly when the request has a
    URL and the [try] block ran to its end.  This holds in both
    revisions. *)
Theorem settled_run_is_answered env req st :
  is_Some (captured (ytdlp_events env) []) →
  (∃ r,
     response (Structured.route env req st).2 = Some r ∧
     (status r = 200 ∨ status r = 400 ∨ status r = 500)%Z ∧
     (status r = 200%Z ↔
      ∃ u, url req = Some u ∧ truthy u = true ∧
           (pipeline Structured.transcribeAndTranslateWithGemini
              Structured.success_body env u (set_downloadedFile [] st)).1
           = Normal tt)) ∧
  (∃ r,
     response (Plain.route env req st).2 = Some r ∧
     (status r = 200 ∨ status r = 400 ∨ status r = 500)%Z ∧
     (status r = 200%Z ↔
      ∃ u, url req = Some u ∧ truthy u = true ∧
           (pipeline Plain.transcribeAndTranslateWithGemini
              Plain.success_body env u (set_downloadedFile [] st)).1
           = Normal tt)).
Proof.
  intros Hcap.
  assert (Hgen : ∀ R (T : Env → jsstring → M R) S,
    (∀ env p st, settles (T env p st)) →
    ∃ r,
      response (transcribe_route T S env req st).2 = Some r ∧
      (status r = 200 ∨ status r = 400 ∨ status r = 500)%Z ∧
      (status r = 200%Z ↔
       ∃ u, url req = Some u ∧ truthy u = true ∧
            (pipeline T S env u (set_downloadedFile [] st)).1 = Normal tt)).
  { intros R T S HT. destruct req as [[u|]]; cbn [url].
    - destruct (truthy u) eqn:Hu.
      + destruct (route_response T S env u st Hu) as [-> _].
        pose proof (settles_pipeline T S HT env u (set_downloadedFile [] st) Hcap)
          as Hs.
        unfold try_catch, settles in *.
        destruct (pipeline T S env u _) as [[[]|e|e] s1] eqn:Hp;
          cbn [fst snd] in *; [| |done].
        * destruct (pipeline_success_inv _ _ _ _ _ _ Hp)
            as (r & _ & _ & _ & ->).
          eexists. split; [done|]. cbn [status]. split; [by left|].
          split; [|done]. intros _. exists u. by rewrite Hp.
        * unfold on_error. destruct (eqb _ _); cbn [snd response set_response
            modify respond bind console_error add_log fst];
            (eexists; split; [done|]); cbn [status];
            (split; [by auto|]); split; try done;
            intros (u' & [= <-] & _ & Hn); by rewrite Hp in Hn.
      + unfold transcribe_route. cbn [url]. rewrite Hu. cbn.
        eexists. split; [done|]. cbn. split; [by auto|]. split; [done|].
        intros (u' & [= <-] & Hu' & _). congruence.
    - unfold transcribe_route. cbn.
      eexists. split; [done|]. cbn. split; [by auto|]. split; [done|].
      by intros (u' & ? & _). }
  split; apply Hgen; [apply settles_structured|apply settles_plain].
Qed.

Lemma settled_run_is_answered_witness :
  ∃ r, response (Structured.route undeletable reel st0).2 = Some r ∧
       status r = 200%Z.
Proof.
  destruct (settled_run_is_answered undeletable reel st0) as [(r & Hr & _ & Hok) _];
    [by eexists|].
  exists r. split; [exact Hr|]. apply Hok.
  exists (js "https://valid.example/reel").
  split; [reflexivity|]. split; [reflexivity|]. vm_compute. reflexivity.
Defined.

(** ** The fence marker *)

(** X6. For a reply that begins with the json-tagged fence marker, the
    cleaning removes the seven code units of the marker and the last three
    code units of the reply, whatever these three are, and trims the rest:
    the closing fence is never looked at. *)
Theorem fence_tail_dropped_unchecked body tail :
  length tail = 3%nat →
  Structured.strip_fence (js "```json" ++ body ++ tail) = trim body.
Proof.
  intros Ht. unfold Structured.strip_fence, startsWith.
  rewrite is_prefix_app. f_equal.
  unfold substring, clamp_index.
  rewrite !length_app, Ht.
  change (length (js "```json")) with 7%nat.
  replace (Z.to_nat (Z.max 0 7)) with 7%nat by done.
  replace (Z.to_nat (Z.max 0 (Z.of_nat (7 + (length body + 3)) - 3)))
    with (7 + length body)%nat by lia.
  rewrite !Nat.min_l, Nat.max_r by lia.
  replace (7 + length body - 7)%nat with (length body) by lia.
  rewrite drop_app_length' by done.
  by rewrite take_app_length.
Qed.

Lemma fence_tail_dropped_unchecked_witness :
  Structured.strip_fence (fenced ++ [10%N])
  = three_fields ++ [10%N; 96%N] ∧
  JSON_parse (Structured.strip_fence (fenced ++ [10%N])) = None.
Proof.
  assert (H : Structured.strip_fence (fenced ++ [10%N])
              = trim ([10%N] ++ three_fields ++ [10%N; 96%N])).
  { apply (fence_tail_dropped_unchecked
             ([10%N] ++ three_fields ++ [10%N; 96%N]) [96%N; 96%N; 10%N]).
    reflexivity. }
  rewrite H. split; vm_compute; reflexivity.
Defined.

(** X7. A reply that begins with the json-tagged fence marker and has at
    most ten code units never parses: the cleaning leaves a piece of the
    marker itself (or nothing), so the function throws its fixed error. *)
Theorem short_fenced_reply_fails text :
  startsWith text (js "```json") = true →
  (length text ≤ 10)%nat →
  JSON_parse (Structured.strip_fence text) = None ∧
  ∀ env p st,
    p ∈ fs st →
    inference env = Reply text →
    (Structured.transcribeAndTranslateWithGemini env p st).1
    = Throw gemini_failure.
Proof.
  intros Hstart Hlen.
  assert (Hparse : JSON_parse (Structured.strip_fence text) = None).
  { apply is_prefix_inv in Hstart as [rest ->].
    rewrite length_app in Hlen.
    change (length (js "```json")) with 7%nat in Hlen.
    destruct rest as [|a [|b [|c [|d rest]]]]; simpl in Hlen; try lia;
      by vm_compute. }
  split; [done|]. intros env p st Hin Hreply.
  by rewrite (parse_failure_masked env p st text).
Qed.

Lemma short_fenced_reply_fails_witness :
  Structured.strip_fence (js "```json") = js "son" ∧
  JSON_parse (Structured.strip_fence (js "```json{}")) = None.
Proof.
  split; [reflexivity|].
  destruct (short_fenced_reply_fails (js "```json{}")) as [H _];
    [reflexivity|cbv; lia|exact H].
Defined.

(** ** The destination announcement *)

(** X8. For an event of type [download] whose data is [Destination: ]
    followed by a path that does not itself contain [Destination: ], the
    listener captures the path trimmed; when the path has no white space at
    either end, it captures exactly the path. *)
Theorem announced_path_is_captured path st :
  includes path (js "Destination: ") = false →
  on_ytDlpEvent (js "download") (js "Destination: " ++ path) st
  = (Normal tt, set_downloadedFile (trim path) st) ∧
  ((∀ c, head path = Some c → is_js_space c = false) →
   (∀ c, last path = Some c → is_js_space c = false) →
   on_ytDlpEvent (js "download") (js "Destination: " ++ path) st
   = (Normal tt, set_downloadedFile path st)).
Proof.
  intros Hclean.
  assert (Hrun : on_ytDlpEvent (js "download") (js "Destination: " ++ path) st
                 = (Normal tt, set_downloadedFile (trim path) st)).
  { unfold on_ytDlpEvent.
    assert (Ha : announces_destination (js "download")
                   (js "Destination: " ++ path) = true).
    { unfold announces_destination. apply andb_true_iff. split; [done|].
      change (js "Destination: ") with (js "Destination:" ++ [32%N]).
      rewrite <- app_assoc. apply includes_of_prefix, is_prefix_app. }
    rewrite Ha. unfold after_destination.
    change (js "Destination: ") with (68%N :: js "estination: ").
    change ((68%N :: js "estination: ") ++ path)
      with (68%N :: js "estination: " ++ path).
    by rewrite split_leading. }
  split; [done|]. intros Hh Hl. by rewrite Hrun, trim_clean.
Qed.

Lemma announced_path_is_captured_witness :
  on_ytDlpEvent (js "download") (js "Destination: /app/temp/my reel.m4a") st0
  = (Normal tt, set_downloadedFile (js "/app/temp/my reel.m4a") st0).
Proof.
  destruct (announced_path_is_captured (js "/app/temp/my reel.m4a") st0)
    as [_ H]; [reflexivity|].
  apply H; intros c [= <-]; reflexivity.
Defined.

Lemma captured_trimmed events : ∀ current file,
  (∀ c, head current = Some c → is_js_space c = false) →
  (∀ c, last current = Some c → is_js_space c = false) →
  captured events current = Some file →
  (∀ c, head file = Some c → is_js_space c = false) ∧
  (∀ c, last file = Some c → is_js_space c = false).
Proof.
  induction events as [|[eventType eventData] rest IH];
    intros current file Hh Hl; simpl.
  - by intros [= <-].
  - destruct (announces_destination eventType eventData); [|by apply IH].
    destruct (after_destination eventData) as [part|]; [|done].
    apply IH; [apply trim_head|apply trim_last].
Qed.

(** X9. The path that the handler works with has no white space at either
    end: whatever events the listener has handled, the captured path, which
    is the one checked on disk, passed to ffmpeg and deleted, is trimmed. *)
Theorem captured_path_is_trimmed env u st file :
  captured (ytdlp_events env) [] = Some file →
  downloadedFile (download_step env u (set_downloadedFile [] st)).2 = file ∧
  (∀ c, head file = Some c → is_js_space c = false) ∧
  (∀ c, last file = Some c → is_js_space c = false).
Proof.
  intros Hcap. split.
  - by destruct (download_step_footprint env u (set_downloadedFile [] st)
                   file Hcap) as [? _].
  - by apply (captured_trimmed (ytdlp_events env) []).
Qed.

Lemma captured_path_is_trimmed_witness :
  downloadedFile
    (download_step announcing_twice (js "https://valid.example/reel")
       (set_downloadedFile [] st0)).2 = raw_path.
Proof.
  by destruct (captured_path_is_trimmed announcing_twice
                 (js "https://valid.example/reel") st0 raw_path)
    as [H _].
Defined.

(** ** The transcription function of the text-only revision *)

(** X10. The function of the text-only revision: when the waveform file
    cannot be read, it throws its fixed error without invoking the model;
    when the call to the model throws, it throws the same fixed error; when
    the model replies, it returns the reply trimmed, a text without white
    space at either end (the empty text for a reply of white space only). *)
Theorem plain_transcription env p st :
  (p ∉ fs st →
   (Plain.transcribeAndTranslateWithGemini env p st).1 = Throw gemini_failure ∧
   calls (Plain.transcribeAndTranslateWithGemini env p st).2 = calls st) ∧
  (p ∈ fs st →
   match inference env with
   | InferenceError err =>
       (Plain.transcribeAndTranslateWithGemini env p st).1
       = Throw gemini_failure
   | Reply text =>
       Plain.transcribeAndTranslateWithGemini env p st
       = (Normal (trim text), add_call (CallGenerateContent p) st) ∧
       (∀ c, head (trim text) = Some c → is_js_space c = false) ∧
       (∀ c, last (trim text) = Some c → is_js_space c = false)
   end).
Proof.
  split; [apply plain_missing_file|]. intros Hin.
  destruct (inference env) as [text|err] eqn:Hinf.
  - split; [by apply plain_reply|]. split; [apply trim_head|apply trim_last].
  - by rewrite (plain_inference_error env p st err).
Qed.

Lemma plain_transcription_witness :
  (Plain.transcribeAndTranslateWithGemini padded (audioFilePath working)
     (set_fs (λ _, {[ audioFilePath working ]}) st0)).1
  = Normal (js "Hello there.").
Proof.
  destruct (plain_transcription padded (audioFilePath working)
              (set_fs (λ _, {[ audioFilePath working ]}) st0)) as [_ H].
  destruct H as [-> _]; [vm_compute; reflexivity|].
  vm_compute. reflexivity.
Defined.

(** ** The filesystem after the handler *)

(** X11. When the handler returns, the filesystem is exactly what yt-dlp
    left, minus the captured raw file (when a path was captured) and minus
    the waveform file, in both revisions.  So the handler deletes nothing
    else, and any other file that yt-dlp wrote, such as a file announced
    before the last one, stays on disk. *)
Theorem final_filesystem env u st st' file :
  truthy u = true →
  captured (ytdlp_events env) [] = Some file →
  Structured.route env {| url := Some u |} st = (Normal tt, st') ∨
  Plain.route env {| url := Some u |} st = (Normal tt, st') →
  downloadedFile st' = file ∧
  fs st'
  = (if truthy file then after_download env st ∖ {[ file ]}
     else after_download env st) ∖ {[ audioFilePath env ]}.
Proof.
  intros Hu Hcap Hrun.
  assert (Hgen : ∀ R (T : Env → jsstring → M R) S,
    (∀ e p, confined ∅ (T e p)) →
    (∀ e p s, p ∈ fs s → calls (T e p s).2 = calls s ++ [CallGenerateContent p]) →
    transcribe_route T S env {| url := Some u |} st = (Normal tt, st') →
    downloadedFile st' = file ∧
    fs st'
    = (if truthy file then after_download env st ∖ {[ file ]}
       else after_download env st) ∖ {[ audioFilePath env ]}).
  { intros R T S HT HTc. rewrite route_started by done. unfold try_finally.
    destruct (attempt_footprint T S HT HTc env u st file Hcap)
      as (Hfile & Hsub & Hsup).
    cbv beta in Hfile, Hsub, Hsup.
    destruct (try_catch (pipeline T S env u) on_error _) as [[[]|e|e] s1];
      cbn [fst snd] in *; [| |done];
      pose proof (cleanup_frame env s1) as (_ & _ & Hd & _);
      destruct (cleanup env s1) as [[[]|e'|e'] s2] eqn:Hc; try done;
      cbn [snd] in Hd; intros [= <-];
      destruct (cleanup_exact _ _ _ Hc) as [-> _];
      rewrite Hd, Hfile; (split; [done|]);
      destruct (truthy file); set_solver. }
  destruct Hrun as [Hrun|Hrun].
  - apply (Hgen _ Structured.transcribeAndTranslateWithGemini
             Structured.success_body); try done.
    + intros e p. apply confined_structured.
    + apply structured_calls.
  - apply (Hgen _ Plain.transcribeAndTranslateWithGemini
             Plain.success_body); try done.
    + intros e p. apply confined_plain.
    + apply plain_calls.
Qed.

Lemma final_filesystem_witness :
  fs (Structured.route leaving_two reel st0).2
  = {[ js "/app/temp/keep.txt"; first_path ]}.
Proof.
  destruct (final_filesystem leaving_two (js "https://valid.example/reel")
              st0 (Structured.route leaving_two reel st0).2 raw_path)
    as [_ ->]; [reflexivity|reflexivity|left; vm_compute; reflexivity|].
  vm_compute. reflexivity.
Defined.

(** ** Module initialisation *)

(** X12. Loading the module without an API key, or with an empty one,
    throws the error naming [GEMINI_API_KEY] before anything is created.
    With a key it returns and the temporary directory exists afterwards;
    the directory is created only when it is absent, so [mkdirSync] never
    fails on an existing directory and loading again changes nothing. *)
Theorem initialise_prepares_temp_dir penv dir st :
  (is_set (GEMINI_API_KEY penv) = false →
   initialise penv dir st
   = (Throw (Error (js "GEMINI_API_KEY is not defined in your .env file.")),
      st)) ∧
  (is_set (GEMINI_API_KEY penv) = true →
   ∃ st',
     initialise penv dir st = (Normal tt, st') ∧
     fs st' = {[ dir ]} ∪ fs st ∧
     initialise penv dir st' = (Normal tt, st')).
Proof.
  unfold initialise, mkdirSync, bind, existsSync, gets, writes, modify.
  split; intros ->; cbn [negb]; [done|]. cbv beta iota.
  destruct (bool_decide (dir ∈ fs st)) eqn:Hd; cbn [negb].
  - apply bool_decide_eq_true_1 in Hd. exists st.
    split; [done|]. split; [set_solver|].
    by rewrite bool_decide_eq_true_2.
  - rewrite Hd. eexists. split; [done|]. cbn [fs set_fs snd fst].
    split; [set_solver|].
    rewrite bool_decide_eq_true_2 by set_solver. done.
Qed.

Lemma initialise_prepares_temp_dir_witness :
  (initialise {| GEMINI_API_KEY := Some [] |} (js "/app/temp") st0).1
  = Throw (Error (js "GEMINI_API_KEY is not defined in your .env file.")) ∧
  ∃ st', initialise {| GEMINI_API_KEY := Some (js "k") |} (js "/app/temp") st0
         = (Normal tt, st') ∧
         fs st' = {[ js "/app/temp" ]} ∪ fs st0.
Proof.
  split.
  - destruct (initialise_prepares_temp_dir {| GEMINI_API_KEY := Some [] |}
                (js "/app/temp") st0) as [-> _]; reflexivity.
  - destruct (initialise_prepares_temp_dir
                {| GEMINI_API_KEY := Some (js "k") |} (js "/app/temp") st0)
      as [_ H].
    destruct H as (st' & Hrun & Hfs & _); [reflexivity|].
    exists st'. split; [exact Hrun|exact Hfs].
Defined.

(** ** A cleanup with nothing to delete *)

Lemma cleanup_nothing_to_delete env st :
  (truthy (downloadedFile st) = true → downloadedFile st ∉ fs st) →
  audioFilePath env ∉ fs st →
  cleanup env st
  = (Normal tt,
     add_log (ConsoleLog [LText (js "Temporary files cleaned up.")]) st).
Proof.
  intros Hraw Hwav. unfold_cleanup.
  destruct (truthy (downloadedFile st)) eqn:Ht; cbn [andb].
  - rewrite bool_decide_eq_false_2 by auto. cbn [fst snd].
    by rewrite bool_decide_eq_false_2.
  - by rewrite bool_decide_eq_false_2.
Qed.

(** X13. Each deletion is guarded by [existsSync], so a run that leaves no
    temporary file behind never calls [unlinkSync]: when yt-dlp closes
    without an announcement and the waveform path is not on disk, the
    handler returns with the 400 response even in an environment where
    every deletion would throw, and the filesystem is what yt-dlp left.
    This holds in both revisions. *)
Theorem failed_download_needs_no_deletion env u st :
  truthy u = true →
  ytdlp_end env = Close →
  Forall (λ ev, announces_destination ev.1 ev.2 = false) (ytdlp_events env) →
  audioFilePath env ∉ after_download env st →
  (∃ st', Structured.route env {| url := Some u |} st = (Normal tt, st') ∧
          fs st' = after_download env st ∧
          (status <$> response st') = Some 400%Z) ∧
  (∃ st', Plain.route env {| url := Some u |} st = (Normal tt, st') ∧
          fs st' = after_download env st ∧
          (status <$> response st') = Some 400%Z).
Proof.
  intros Hu Hclose Hquiet Hwav.
  assert (Hgen : ∀ R (T : Env → jsstring → M R) S,
    ∃ st', transcribe_route T S env {| url := Some u |} st = (Normal tt, st') ∧
           fs st' = after_download env st ∧
           (status <$> response st') = Some 400%Z).
  { intros R T S. rewrite route_started by done. unfold try_finally.
    destruct (download_step_fails env u (set_downloadedFile [] st) [])
      as (s1 & Hd & _ & _ & Hfile & Hfs);
      [done|by apply captured_quiet|by left|].
    unfold try_catch, pipeline. unfold bind at 1. rewrite Hd.
    unfold on_error.
    replace (eqb (message (Error (js "DownloadFailed"))) (js "DownloadFailed"))
      with true by (by vm_compute).
    unfold respond, modify. cbv beta iota.
    rewrite cleanup_nothing_to_delete.
    - eexists. split; [done|]. cbn [fs add_log set_response response].
      by rewrite Hfs.
    - cbn [downloadedFile set_response]. by rewrite Hfile.
    - cbn [fs set_response]. by rewrite Hfs. }
  split; apply Hgen.
Qed.

Lemma failed_download_needs_no_deletion_witness :
  ∃ st',
    Structured.route (with_unlink_error silent (λ _, Some eperm)) reel st0
    = (Normal tt, st') ∧ fs st' = fs st0.
Proof.
  destruct (failed_download_needs_no_deletion
              (with_unlink_error silent (λ _, Some eperm))
              (js "https://valid.example/reel") st0)
    as [(st' & Hrun & Hfs & _) _];
    [reflexivity|reflexivity|by repeat constructor|by vm_compute|].
  exists st'. split; [exact Hrun|]. rewrite Hfs. vm_compute. reflexivity.
Defined.
